(** * LABColor: the CIE LAB colour of CanvasTools, over IEEE binary64

    Shallow embedding of
    [src/canvastools/ts/CanvasTools/Core/Colors/LABColor.ts].

    A TypeScript [number] is an IEEE 754 binary64 value; it is modelled by
    Rocq's primitive [float], whose [+ - * /] and comparisons are the
    binary64 operations with round-to-nearest-even, exactly the arithmetic
    of ECMAScript.  [Math.sqrt] is taken to be the correctly rounded square
    root of IEEE 754, which is what the engines compute.  A [float] has a
    single [NaN], as a [number] has for a program.  The primitive operations
    are specified by the Standard Library ([FloatAxioms]) against the
    executable reference model [SpecFloat]; the general lemmas below are
    proved through that specification, the concrete evaluations by
    computation.

    The file has two levels.  The methods that only read are functions of
    the content of the private array ([LABColor]); the references, the
    allocation done by [toArray] and the writes of a caller are modelled in
    [Store], where the claims about copies and immutability are settled. *)

From Stdlib Require Import ZArith Floats List Bool Lia.
Import ListNotations.

Set Warnings "-inexact-float".
Local Open Scope float_scope.

(** ** Numbers and arrays *)

Definition number := float.

(** [number[]]. *)
Definition array := list number.

(** [vs[i]] used as a number: an index past the end reads [undefined],
    which every arithmetic operator converts to [NaN]. *)
Definition get (vs : array) (i : nat) : number := nth i vs nan.

(** ** The collaborators of LABColor

    [XYZColor], [RGBColor] and [SRGBColor] are imported by the source file
    and defined elsewhere.  [XYZColor] is used through its three-argument
    constructor and the components of its constant [D65]. *)

Module XYZColor.
Record t := new { x : number; y : number; z : number }.
End XYZColor.

(** ** LABColor *)

(** [interface ILabColorPoint { a: number; b: number; }] *)
Class ILabColorPoint (T : Type) : Type :=
  { point_a : T -> number; point_b : T -> number }.

Module LABColor.

(** An instance is its private field [values]. *)
Record t := Build { values : array }.

(** [constructor(l, a, b) { this.values = [l, a, b]; }] *)
Definition new (l a b : number) : t := {| values := [l; a; b] |}.

(** [get l() { return this.values[0]; }] and its two siblings. *)
Definition l (this : t) : number := get (values this) 0.
Definition a (this : t) : number := get (values this) 1.
Definition b (this : t) : number := get (values this) 2.

(** [distanceTo(color)]: the CIE94 difference, line by line. *)
Definition distanceTo (this color : t) : number :=
  let deltaL := get (values this) 0 - get (values color) 0 in
  let deltaA := get (values this) 1 - get (values color) 1 in
  let deltaB := get (values this) 2 - get (values color) 2 in
  let c1 := sqrt (get (values this) 1 * get (values this) 1
                  + get (values this) 2 * get (values this) 2) in
  let c2 := sqrt (get (values color) 1 * get (values color) 1
                  + get (values color) 2 * get (values color) 2) in
  let deltaC := c1 - c2 in
  let deltaH := deltaA * deltaA + deltaB * deltaB - deltaC * deltaC in
  let deltaH := if deltaH <? 0 then 0 else sqrt deltaH in
  let sc := 1.0 + 0.045 * c1 in
  let sh := 1.0 + 0.015 * c1 in
  let deltaLKlsl := deltaL / 1.0 in
  let deltaCkcsc := deltaC / sc in
  let deltaHkhsh := deltaH / sh in
  let i := deltaLKlsl * deltaLKlsl + deltaCkcsc * deltaCkcsc
           + deltaHkhsh * deltaHkhsh in
  if i <? 0 then 0 else sqrt i.

(** [distanceToGray()] *)
Definition distanceToGray (this : t) : number :=
  sqrt (a this * a this + b this * b this).

(** [toArray() { return this.values.map((v) => v); }] *)
Definition toArray (this : t) : array := map (fun v => v) (values this).

(** The arrow function mapped over [[x, y, z]] in [toXYZ]. *)
Definition toXYZ_component (v : number) : number :=
  let v3 := v * v * v in
  if 0.008856451 <? v3 then v3 else (v - 16 / 116) / 7.787037.

Section Conversions.
(** [XYZColor.D65], and the two conversions the module delegates to. *)
Variable D65 : XYZColor.t.
Variables RGBColor SRGBColor : Type.
Variable XYZColor_toRGB : XYZColor.t -> RGBColor.
Variable RGBColor_toSRGB : RGBColor -> SRGBColor.

(** [toXYZ()] *)
Definition toXYZ (this : t) : XYZColor.t :=
  let y := (l this * 100 + 16) / 116 in
  let x := a this / 5 + y in
  let z := y - b this / 2 in
  let xyz := map toXYZ_component [x; y; z] in
  let x := get xyz 0 in
  let y := get xyz 1 in
  let z := get xyz 2 in
  XYZColor.new (x * XYZColor.x D65) (y * XYZColor.y D65)
               (z * XYZColor.z D65).

(** [toRGB()] and [toSRGB()] *)
Definition toRGB (this : t) : RGBColor := XYZColor_toRGB (toXYZ this).

Definition toSRGB (this : t) : SRGBColor :=
  RGBColor_toSRGB (XYZColor_toRGB (toXYZ this)).
End Conversions.

End LABColor.

(** [class LABColor implements ILabColorPoint] *)
#[export] Instance LABColor_ILabColorPoint : ILabColorPoint LABColor.t :=
  {| point_a := LABColor.a; point_b := LABColor.b |}.

(** ** The formulas of the specification

    The two definitions below follow the wording of the specification, not
    the code; they are compared with the code in the theorems.  Powers are
    read as repeated products taken left to right, the one reading under
    which a formula over the reals names a single binary64 computation. *)

(** "clamped to 0 if negative" *)
Definition clamp0 (x : number) : number := if x <? 0 then 0 else x.

(** CIE94 with unit weights, between [(l1, a1, b1)] and [(l2, a2, b2)]. *)
Definition CIE94 (l1 a1 b1 l2 a2 b2 : number) : number :=
  let deltaL := l1 - l2 in
  let C1 := sqrt (a1 * a1 + b1 * b1) in
  let C2 := sqrt (a2 * a2 + b2 * b2) in
  let deltaC := C1 - C2 in
  let deltaA := a1 - a2 in
  let deltaB := b1 - b2 in
  let deltaH := sqrt (clamp0 (deltaA * deltaA + deltaB * deltaB
                              - deltaC * deltaC)) in
  let Sc := 1 + 0.045 * C1 in
  let Sh := 1 + 0.015 * C1 in
  sqrt (clamp0 (deltaL * deltaL + (deltaC / Sc) * (deltaC / Sc)
                + (deltaH / Sh) * (deltaH / Sh))).

(** The piecewise inverse: the cube above the threshold, else linear. *)
Definition XYZ_ratio (f : number) : number :=
  if 0.008856451 <? f * f * f then f * f * f
  else (f - 16 / 116) / 7.787037.

(** Inverse CIE LAB to XYZ against a white point [(Xn, Yn, Zn)]. *)
Definition CIELAB_inverse (Xn Yn Zn l a b : number) : XYZColor.t :=
  let fy := (l * 100 + 16) / 116 in
  let fx := a / 5 + fy in
  let fz := fy - b / 2 in
  XYZColor.new (XYZ_ratio fx * Xn) (XYZ_ratio fy * Yn) (XYZ_ratio fz * Zn).

(** ** Instrumented reading of the two guarded square roots

    The arguments with which lines 69 and 76 of the source actually call
    [Math.sqrt]: nothing when the guard answers 0 instead. *)
Definition guarded_sqrt_arguments (this color : LABColor.t) : list number :=
  let deltaL := get (LABColor.values this) 0 - get (LABColor.values color) 0 in
  let deltaA := get (LABColor.values this) 1 - get (LABColor.values color) 1 in
  let deltaB := get (LABColor.values this) 2 - get (LABColor.values color) 2 in
  let c1 := sqrt (get (LABColor.values this) 1 * get (LABColor.values this) 1
                  + get (LABColor.values this) 2 * get (LABColor.values this) 2) in
  let c2 := sqrt (get (LABColor.values color) 1 * get (LABColor.values color) 1
                  + get (LABColor.values color) 2 * get (LABColor.values color) 2) in
  let deltaC := c1 - c2 in
  let radicandH := deltaA * deltaA + deltaB * deltaB - deltaC * deltaC in
  let deltaH := if radicandH <? 0 then 0 else sqrt radicandH in
  let sc := 1.0 + 0.045 * c1 in
  let sh := 1.0 + 0.015 * c1 in
  let deltaLKlsl := deltaL / 1.0 in
  let deltaCkcsc := deltaC / sc in
  let deltaHkhsh := deltaH / sh in
  let i := deltaLKlsl * deltaLKlsl + deltaCkcsc * deltaCkcsc
           + deltaHkhsh * deltaHkhsh in
  (if radicandH <? 0 then [] else [radicandH])
  ++ (if i <? 0 then [] else [i]).

(** The hue radicand of line 68, before the guard of line 69. *)
Definition hue_radicand (this color : LABColor.t) : number :=
  let deltaA := get (LABColor.values this) 1 - get (LABColor.values color) 1 in
  let deltaB := get (LABColor.values this) 2 - get (LABColor.values color) 2 in
  let c1 := sqrt (get (LABColor.values this) 1 * get (LABColor.values this) 1
                  + get (LABColor.values this) 2 * get (LABColor.values this) 2) in
  let c2 := sqrt (get (LABColor.values color) 1 * get (LABColor.values color) 1
                  + get (LABColor.values color) 2 * get (LABColor.values color) 2) in
  let deltaC := c1 - c2 in
  deltaA * deltaA + deltaB * deltaB - deltaC * deltaC.

(** All three components are finite: neither [NaN] nor an infinity. *)
Definition finite_components (c : LABColor.t) : bool :=
  is_finite (LABColor.l c) && is_finite (LABColor.a c)
  && is_finite (LABColor.b c).

(** A number of ordinary size: magnitude at most [2^200].  The nominal
    range [[0, 1]] of the components lies well inside. *)
Definition small (v : number) : bool := abs v <=? 0x1p200.

Definition small_components (c : LABColor.t) : bool :=
  small (LABColor.l c) && small (LABColor.a c) && small (LABColor.b c).

(** ** Instances as objects of a store

    In the running program an instance holds a reference to its array, and
    [toArray] hands a second array to the caller, who may write to it.  The
    store keeps one cell per array; a reference is the index of its cell. *)

Module Store.

Definition ref := nat.
Definition heap := list array.

Definition read (r : ref) (h : heap) : option array := nth_error h r.

(** Any in-place change of the array at [r] (element assignment, [push],
    [length = 0], ...): its content becomes [vs]. *)
Fixpoint write (r : ref) (vs : array) (h : heap) {struct h} : heap :=
  match h, r with
  | [], _ => []
  | _ :: h', O => vs :: h'
  | c :: h', S r' => c :: write r' vs h'
  end.

(** An instance: the reference kept in its private field [values]. *)
Record LABColor := { values : ref }.

(** A computation on the store; [None] is a thrown [TypeError] (reading a
    component of an array that is not there). *)
Definition M (A : Type) : Type := heap -> option (A * heap).

Definition ret {A} (v : A) : M A := fun h => Some (v, h).

Definition bind {A B} (m : M A) (k : A -> M B) : M B :=
  fun h => match m h with
           | Some (v, h') => k v h'
           | None => None
           end.

(** An array literal, or the result of [map]: a new cell. *)
Definition alloc (vs : array) : M ref :=
  fun h => Some (length h, h ++ [vs]).

(** [this.values], dereferenced. *)
Definition instance (this : LABColor) : M LABColor.t :=
  fun h => match read (values this) h with
           | Some vs => Some (LABColor.Build vs, h)
           | None => None
           end.

(** [new LABColor(l, a, b)] *)
Definition new (l a b : number) : M LABColor :=
  bind (alloc [l; a; b]) (fun r => ret {| values := r |}).

Definition l (this : LABColor) : M number :=
  bind (instance this) (fun X => ret (LABColor.l X)).
Definition a (this : LABColor) : M number :=
  bind (instance this) (fun X => ret (LABColor.a X)).
Definition b (this : LABColor) : M number :=
  bind (instance this) (fun X => ret (LABColor.b X)).

Definition distanceTo (this color : LABColor) : M number :=
  bind (instance this) (fun X =>
  bind (instance color) (fun Y => ret (LABColor.distanceTo X Y))).

Definition distanceToGray (this : LABColor) : M number :=
  bind (instance this) (fun X => ret (LABColor.distanceToGray X)).

(** [this.values.map((v) => v)]: the copy is a new array. *)
Definition toArray (this : LABColor) : M ref :=
  bind (instance this) (fun X => alloc (LABColor.toArray X)).

Section Conversions.
Variable D65 : XYZColor.t.
Variables RGBColor SRGBColor : Type.
Variable XYZColor_toRGB : XYZColor.t -> RGBColor.
Variable RGBColor_toSRGB : RGBColor -> SRGBColor.

(** The collaborators receive the new [XYZColor] only, which holds
    numbers: they are given no reference into the store. *)
Definition toXYZ (this : LABColor) : M XYZColor.t :=
  bind (instance this) (fun X => ret (LABColor.toXYZ D65 X)).

Definition toRGB (this : LABColor) : M RGBColor :=
  bind (instance this) (fun X =>
    ret (LABColor.toRGB D65 RGBColor XYZColor_toRGB X)).

Definition toSRGB (this : LABColor) : M SRGBColor :=
  bind (instance this) (fun X =>
    ret (LABColor.toSRGB D65 RGBColor SRGBColor XYZColor_toRGB
                         RGBColor_toSRGB X)).

(** The operations of the type, and what they answer. *)
Inductive call :=
| Get_l | Get_a | Get_b
| DistanceTo (color : LABColor)
| DistanceToGray
| ToArray
| ToXYZ | ToRGB | ToSRGB.

Inductive answer :=
| Number (n : number)
| Array (r : ref)
| XYZ (c : XYZColor.t)
| RGB (c : RGBColor)
| SRGB (c : SRGBColor).

Definition invoke (c : call) (this : LABColor) : M answer :=
  match c with
  | Get_l => bind (l this) (fun n => ret (Number n))
  | Get_a => bind (a this) (fun n => ret (Number n))
  | Get_b => bind (b this) (fun n => ret (Number n))
  | DistanceTo color =>
      bind (distanceTo this color) (fun n => ret (Number n))
  | DistanceToGray => bind (distanceToGray this) (fun n => ret (Number n))
  | ToArray => bind (toArray this) (fun r => ret (Array r))
  | ToXYZ => bind (toXYZ this) (fun c => ret (XYZ c))
  | ToRGB => bind (toRGB this) (fun c => ret (RGB c))
  | ToSRGB => bind (toSRGB this) (fun c => ret (SRGB c))
  end.

(** A run: instances constructed and operations of the type invoked one
    after the other, each on any instance, from heap to heap. *)
Inductive run : heap -> heap -> Prop :=
| run_done h : run h h
| run_new h l a b this h' h'' :
    new l a b h = Some (this, h') -> run h' h'' -> run h h''
| run_call h c this v h' h'' :
    invoke c this h = Some (v, h') -> run h' h'' -> run h h''.
End Conversions.

End Store.

(** ** Classes of binary64 data

    Predicates on the data of the reference model [SpecFloat], in which the
    rounding lemmas are stated. *)

(** Sign classes of a binary64 datum. *)
Definition is_nonneg (x : spec_float) : Prop :=
  match x with
  | S754_zero false | S754_infinity false | S754_finite false _ _ => True
  | _ => False
  end.

(** No sign other than [s]; [NaN] has none. *)
Definition signed_as (s : bool) (x : spec_float) : Prop :=
  match x with
  | S754_zero s' | S754_infinity s' | S754_finite s' _ _ => s' = s
  | S754_nan => True
  end.

(** What [binary_round_aux] can return. *)
Variant rounded (s : bool) : spec_float -> Prop :=
  | rounded_zero : rounded s (S754_zero s)
  | rounded_finite m e : rounded s (S754_finite s m e)
  | rounded_infinity : rounded s (S754_infinity s).

(** The datum of the literal [1.0]. *)
Definition SFone64 : spec_float :=
  S754_finite false 4503599627370496%positive (-52)%Z.

(** Strictly positive, [+Infinity] included. *)
Definition is_pos (x : spec_float) : Prop :=
  match x with
  | S754_infinity false | S754_finite false _ _ => True
  | _ => False
  end.

(** Neither [NaN] nor an infinity. *)
Definition is_fin (x : spec_float) : Prop :=
  match x with
  | S754_zero _ | S754_finite _ _ _ => True
  | _ => False
  end.

(** Finite and of magnitude below [2^k]. *)
Definition bounded_by (k : Z) (x : spec_float) : Prop :=
  match x with
  | S754_zero _ => True
  | S754_finite _ m e => (Zpos (digits2_pos m) + e <= k)%Z
  | _ => False
  end.

(** The record [r] is [M] shifted right by [k >= 1] bits: [shr_r] is the
    last bit shifted out and [shr_s] tells whether an earlier one was set. *)
Definition shr_inv (M k : Z) (r : shr_record) : Prop :=
  (0 <= shr_m r /\
   exists u, M = shr_m r * 2 ^ k + (if shr_r r then 2 ^ (k - 1) else 0) + u
             /\ 0 <= u < 2 ^ (k - 1) /\ (shr_s r = true <-> u <> 0))%Z.

(** The same classes on primitive floats, through [Prim2SF]. *)
Definition nonneg (x : float) : Prop := is_nonneg (Prim2SF x).
Definition positive_or_inf (x : float) : Prop := is_pos (Prim2SF x).
Definition bnd (k : Z) (v : float) : Prop := bounded_by k (Prim2SF v).

(** ** Decimal literals

    A decimal literal of the source denotes the binary64 value nearest to
    it.  [nearest_double n k x]: the positive float [x], with mantissa [m]
    and exponent [e < 0], lies strictly within half a unit in its last
    place of the decimal [n / 10^k]. *)
Definition nearest_double (n k : Z) (x : float) : Prop :=
  match Prim2SF x with
  | S754_finite false m e =>
      (e < 0 /\ 2 * Z.abs (Zpos m * 10 ^ k - n * 2 ^ (- e)) < 10 ^ k)%Z
  | _ => False
  end.

(** ** Intermediate values of distanceTo

    The values the method holds in its local variables, for the properties
    that speak of them. *)

(** The sum [i] of line 75, before the guard of line 76. *)
Definition sum_of_squares (this color : LABColor.t) : number :=
  let deltaL := get (LABColor.values this) 0 - get (LABColor.values color) 0 in
  let deltaA := get (LABColor.values this) 1 - get (LABColor.values color) 1 in
  let deltaB := get (LABColor.values this) 2 - get (LABColor.values color) 2 in
  let c1 := sqrt (get (LABColor.values this) 1 * get (LABColor.values this) 1
                  + get (LABColor.values this) 2 * get (LABColor.values this) 2) in
  let c2 := sqrt (get (LABColor.values color) 1 * get (LABColor.values color) 1
                  + get (LABColor.values color) 2 * get (LABColor.values color) 2) in
  let deltaC := c1 - c2 in
  let deltaH := deltaA * deltaA + deltaB * deltaB - deltaC * deltaC in
  let deltaH := if deltaH <? 0 then 0 else sqrt deltaH in
  let sc := 1.0 + 0.045 * c1 in
  let sh := 1.0 + 0.015 * c1 in
  let deltaLKlsl := deltaL / 1.0 in
  let deltaCkcsc := deltaC / sc in
  let deltaHkhsh := deltaH / sh in
  deltaLKlsl * deltaLKlsl + deltaCkcsc * deltaCkcsc
  + deltaHkhsh * deltaHkhsh.

(** The divisors [sc] and [sh] of lines 70 and 71. *)
Definition scale_factors (this : LABColor.t) : number * number :=
  let c1 := sqrt (get (LABColor.values this) 1 * get (LABColor.values this) 1
                  + get (LABColor.values this) 2 * get (LABColor.values this) 2) in
  let sc := 1.0 + 0.045 * c1 in
  let sh := 1.0 + 0.015 * c1 in
  (sc, sh).

(** Some component is [NaN]; a component missing from the array reads as
    one. *)
Definition has_nan (c : LABColor.t) : bool :=
  is_nan (LABColor.l c) || is_nan (LABColor.a c) || is_nan (LABColor.b c).

(** Equal up to the sign. *)
Definition same_magnitude (u v : spec_float) : Prop := u = v \/ u = SFopp v.

(** The three components of an [XYZColor] are finite. *)
Definition finite_XYZ (c : XYZColor.t) : bool :=
  is_finite (XYZColor.x c) && is_finite (XYZColor.y c)
  && is_finite (XYZColor.z c).

(** A white point of ordinary size. *)
Definition small_XYZ (c : XYZColor.t) : bool :=
  small (XYZColor.x c) && small (XYZColor.y c) && small (XYZColor.z c).

(** Positive, [+Infinity] included, and of magnitude at least
    [2^(k-1)]. *)
Definition at_least (k : Z) (x : spec_float) : Prop :=
  match x with
  | S754_finite false m e => (k <= Zpos (digits2_pos m) + e)%Z
  | S754_infinity false => True
  | _ => False
  end.

Definition lbnd (k : Z) (v : float) : Prop := at_least k (Prim2SF v).

(** ** Numerically identical colours, and colours apart

    [==] on each of the three components; and the components that differ
    differing by a threshold at least, below which the square of a
    difference, or of its quotient by a scale factor, underflows. *)
Definition same_components (X Y : LABColor.t) : bool :=
  (LABColor.l X =? LABColor.l Y) && (LABColor.a X =? LABColor.a Y)
  && (LABColor.b X =? LABColor.b Y).

Definition apart (t x y : number) : bool := (x =? y) || (t <=? abs (x - y)).

Definition separated_components (X Y : LABColor.t) : bool :=
  apart 0x1p-511 (LABColor.l X) (LABColor.l Y)
  && apart 0x1p-300 (LABColor.a X) (LABColor.a Y)
  && apart 0x1p-300 (LABColor.b X) (LABColor.b Y).

(** Of magnitude at least [2^(k-1)], whatever the sign. *)
Definition labs (k : Z) (v : float) : Prop := at_least k (SFabs (Prim2SF v)).

(** * Theorems *)

(** ** Rounding in the reference model

    Facts about [SpecFloat] at precision 53 and maximal exponent 1024: what
    rounding can return, and the operations on the operands that occur in
    [distanceTo]. *)

Module IEEE.
Local Open Scope Z_scope.

Lemma shr_1_m r : 0 <= shr_m r -> shr_m (shr_1 r) = Z.div2 (shr_m r).
Proof.
  destruct r as [m rb sb]; destruct m as [|p|p]; simpl; intros H;
    try reflexivity; try lia; destruct p; reflexivity.
Qed.

Lemma Zdiv2_shiftr m : Z.div2 m = Z.shiftr m 1.
Proof. symmetry. apply Z.div2_spec. Qed.

Lemma iter_shr_1_m p : forall r, 0 <= shr_m r ->
  shr_m (iter_pos shr_1 p r) = Z.shiftr (shr_m r) (Zpos p).
Proof.
  induction p as [p IH|p IH|]; intros r Hr; simpl iter_pos.
  - assert (H1 : 0 <= shr_m (shr_1 r)).
    { rewrite shr_1_m, Zdiv2_shiftr by assumption. now apply Z.shiftr_nonneg. }
    assert (H2 : 0 <= shr_m (iter_pos shr_1 p (shr_1 r))).
    { rewrite IH by assumption. now apply Z.shiftr_nonneg. }
    rewrite !IH, shr_1_m, Zdiv2_shiftr, !Z.shiftr_shiftr by (assumption || lia).
    f_equal; lia.
  - assert (H2 : 0 <= shr_m (iter_pos shr_1 p r)).
    { rewrite IH by assumption. now apply Z.shiftr_nonneg. }
    rewrite !IH, !Z.shiftr_shiftr by (assumption || lia). f_equal; lia.
  - now rewrite shr_1_m, Zdiv2_shiftr.
Qed.

Lemma shr_m_shiftr r e n : 0 <= shr_m r ->
  shr_m (fst (shr r e n)) = Z.shiftr (shr_m r) (Z.max 0 n).
Proof.
  intros Hr. destruct n as [|p|p]; simpl; try reflexivity.
  now apply iter_shr_1_m.
Qed.

Lemma shr_e r e n : snd (shr r e n) = e + Z.max 0 n.
Proof. destruct n; simpl; lia. Qed.

Lemma shr_m_of_loc m l : shr_m (shr_record_of_loc m l) = m.
Proof. destruct l as [|[]]; reflexivity. Qed.

Lemma digits2_size p : digits2_pos p = Pos.size p.
Proof. induction p; simpl; congruence. Qed.

Lemma Zdigits2_bounds p :
  2 ^ (Zpos (digits2_pos p) - 1) <= Zpos p < 2 ^ Zpos (digits2_pos p).
Proof.
  rewrite digits2_size. split.
  - pose proof (Pos.size_le p) as H.
    assert (H' : (2 ^ Zpos (Pos.size p) <= 2 * Zpos p)).
    { rewrite <- Pos2Z.inj_pow. lia. }
    replace (Zpos (Pos.size p)) with (Z.succ (Zpos (Pos.size p) - 1)) in H' by lia.
    rewrite Z.pow_succ_r in H' by lia. lia.
  - pose proof (Pos.size_gt p) as H. rewrite <- Pos2Z.inj_pow. lia.
Qed.

Lemma shiftr_pos m n :
  0 < m -> n < Zdigits2 m -> 0 < Z.shiftr m (Z.max 0 n).
Proof.
  intros Hm Hn. destruct m as [|p|p]; try lia. simpl in Hn.
  pose proof (Zdigits2_bounds p) as [Hlo _].
  rewrite Z.shiftr_div_pow2 by lia.
  apply Z.div_str_pos. split; [apply Z.pow_pos_nonneg; lia|].
  eapply Z.le_trans; [|exact Hlo]. apply Z.pow_le_mono_r; lia.
Qed.

Lemma round_nearest_even_bounds m l :
  m <= round_nearest_even m l <= m + 1.
Proof.
  destruct l as [|[]]; simpl; try lia. destruct (Z.even m); lia.
Qed.

Lemma fexp_eq e : fexp prec emax e = Z.max (e - 53) (-1074).
Proof. reflexivity. Qed.

Lemma binary_round_aux_sign s m e l :
  signed_as s (binary_round_aux prec emax s m e l).
Proof.
  unfold binary_round_aux.
  destruct (shr_fexp prec emax m e l) as [r1 e1].
  destruct (shr_fexp prec emax _ e1 loc_Exact) as [r2 e2].
  destruct (shr_m r2); simpl; trivial.
  destruct (e2 <=? _); reflexivity.
Qed.

Lemma binary_round_aux_nonneg s m e l :
  0 <= m -> rounded s (binary_round_aux prec emax s m e l).
Proof.
  intros Hm. unfold binary_round_aux.
  destruct (shr_fexp prec emax m e l) as [r1 e1] eqn:E1.
  destruct (shr_fexp prec emax _ e1 loc_Exact) as [r2 e2] eqn:E2.
  assert (H1 : 0 <= shr_m r1).
  { change r1 with (fst (r1, e1)). rewrite <- E1. unfold shr_fexp.
    rewrite shr_m_shiftr, shr_m_of_loc by (now rewrite shr_m_of_loc).
    now apply Z.shiftr_nonneg. }
  assert (H2 : 0 <= shr_m r2).
  { pose proof (round_nearest_even_bounds (shr_m r1) (loc_of_shr_record r1)).
    change r2 with (fst (r2, e2)). rewrite <- E2. unfold shr_fexp.
    rewrite shr_m_shiftr, shr_m_of_loc by (rewrite shr_m_of_loc; lia).
    apply Z.shiftr_nonneg. lia. }
  destruct (shr_m r2); try lia; [constructor|].
  destruct (e2 <=? _); constructor.
Qed.

Lemma binary_round_aux_pos s m e l :
  0 < m -> -1074 <= e ->
  match binary_round_aux prec emax s m e l with
  | S754_finite s' _ _ | S754_infinity s' => s' = s
  | _ => False
  end.
Proof.
  intros Hm He. unfold binary_round_aux.
  destruct (shr_fexp prec emax m e l) as [r1 e1] eqn:E1.
  destruct (shr_fexp prec emax _ e1 loc_Exact) as [r2 e2] eqn:E2.
  assert (Hd : 0 < Zdigits2 m) by (destruct m; simpl; lia).
  assert (H1 : 0 < shr_m r1 /\ -1074 <= e1).
  { change r1 with (fst (r1, e1)). change e1 with (snd (r1, e1)) at 2.
    rewrite <- E1. unfold shr_fexp.
    rewrite shr_e, shr_m_shiftr, shr_m_of_loc by (rewrite shr_m_of_loc; lia).
    split; [|lia]. apply shiftr_pos; [assumption|]. rewrite fexp_eq. lia. }
  destruct H1 as [H1 He1].
  pose proof (round_nearest_even_bounds (shr_m r1) (loc_of_shr_record r1)) as Hr.
  set (m1 := round_nearest_even _ _) in *.
  assert (Hd1 : 0 < Zdigits2 m1) by (destruct m1; simpl; lia).
  assert (H2 : 0 < shr_m r2).
  { change r2 with (fst (r2, e2)). rewrite <- E2. unfold shr_fexp.
    rewrite shr_m_shiftr, shr_m_of_loc by (rewrite shr_m_of_loc; lia).
    apply shiftr_pos; [lia|]. rewrite fexp_eq. lia. }
  destruct (shr_m r2); try lia.
  destruct (e2 <=? _); reflexivity.
Qed.

Lemma valid_finite s m e :
  valid_binary (S754_finite s m e) = true ->
  Z.max (Zpos (digits2_pos m) + e - 53) (-1074) = e /\ e <= 971.
Proof.
  simpl. unfold bounded, canonical_mantissa. rewrite fexp_eq.
  intros H. apply andb_prop in H. destruct H as [H1 H2].
  apply Z.eqb_eq in H1. apply Z.leb_le in H2. split; [exact H1|].
  exact H2.
Qed.

Lemma shr_nonpos r e n : n <= 0 -> shr r e n = (r, e).
Proof. destruct n; simpl; intros; [reflexivity | lia | reflexivity]. Qed.

Lemma shr_fexp_canonical p e l :
  Z.max (Zpos (digits2_pos p) + e - 53) (-1074) = e ->
  shr_fexp prec emax (Zpos p) e l = (shr_record_of_loc (Zpos p) l, e).
Proof.
  intros Hc. unfold shr_fexp. apply shr_nonpos.
  rewrite fexp_eq. simpl Zdigits2. lia.
Qed.

(** Rounding a canonical mantissa, possibly written with one more trailing
    zero bit, gives the datum back. *)
Lemma binary_round_aux_canonical s m e :
  valid_binary (S754_finite s m e) = true ->
  binary_round_aux prec emax s (Zpos m) e loc_Exact = S754_finite s m e.
Proof.
  intros H. apply valid_finite in H. destruct H as [Hc He].
  unfold binary_round_aux. rewrite shr_fexp_canonical by assumption.
  cbn [shr_record_of_loc shr_m loc_of_shr_record round_nearest_even].
  rewrite shr_fexp_canonical by assumption.
  cbn [shr_record_of_loc shr_m].
  replace (e <=? emax - prec) with true; [reflexivity|].
  symmetry. apply Z.leb_le. exact He.
Qed.

Lemma binary_round_aux_canonical_shifted s m e :
  valid_binary (S754_finite s m e) = true ->
  Zpos (digits2_pos m) = 53 ->
  binary_round_aux prec emax s (Zpos m~0) (e - 1) loc_Exact = S754_finite s m e.
Proof.
  intros H Hd. apply valid_finite in H. destruct H as [Hc He].
  assert (E1 : shr_fexp prec emax (Zpos m~0) (e - 1) loc_Exact
               = (shr_record_of_loc (Zpos m) loc_Exact, e)).
  { unfold shr_fexp. simpl Zdigits2. rewrite fexp_eq.
    replace (Z.max (Zpos (Pos.succ (digits2_pos m)) + (e - 1) - 53) (-1074) - (e - 1))
      with 1 by lia.
    cbn [shr iter_pos shr_record_of_loc shr_1 orb]. f_equal. lia. }
  unfold binary_round_aux. rewrite E1.
  cbn [shr_record_of_loc shr_m loc_of_shr_record round_nearest_even].
  rewrite shr_fexp_canonical by assumption.
  cbn [shr_record_of_loc shr_m].
  replace (e <=? emax - prec) with true; [reflexivity|].
  symmetry. apply Z.leb_le. exact He.
Qed.

Lemma SFdiv_core_one m e :
  Z.max (Zpos (digits2_pos m) + e - 53) (-1074) = e ->
  SFdiv_core_binary prec emax (Zpos m) e 4503599627370496 (-52)
    = (Zpos m, e, loc_Exact) \/
  (Zpos (digits2_pos m) = 53 /\
   SFdiv_core_binary prec emax (Zpos m) e 4503599627370496 (-52)
    = (Zpos m~0, e - 1, loc_Exact)).
Proof.
  intros Hc. unfold SFdiv_core_binary.
  change (Zdigits2 4503599627370496) with 53. simpl Zdigits2.
  rewrite fexp_eq.
  set (d := Zpos (digits2_pos m)) in *.
  destruct (Z.eq_dec (Z.min (Z.max (d + e - (53 + -52) - 53) (-1074)) (e - -52)) e)
    as [E|E].
  - left. rewrite E. replace (e - -52 - e) with 52 by lia.
    rewrite Z.shiftl_mul_pow2 by lia.
    change (2 ^ 52) with 4503599627370496.
    pose proof (Z.div_eucl_eq (Zpos m * 4503599627370496) 4503599627370496) as Hq.
    pose proof (Z.mod_mul (Zpos m) 4503599627370496) as Hr.
    pose proof (Z.div_mul (Zpos m) 4503599627370496) as Hd.
    unfold Z.modulo, Z.div in Hr, Hd.
    destruct (Z.div_eucl _ _) as [q r]. simpl in Hr, Hd.
    rewrite Hr, Hd by lia. reflexivity.
  - right. assert (d = 53 /\ Z.min (Z.max (d + e - (53 + -52) - 53) (-1074)) (e - -52) = e - 1)
      as [Hd53 E'] by lia.
    split; [exact Hd53|]. rewrite E'. replace (e - -52 - (e - 1)) with 53 by lia.
    rewrite Z.shiftl_mul_pow2 by lia.
    replace (Zpos m * 2 ^ 53) with (Zpos m~0 * 4503599627370496) by lia.
    pose proof (Z.mod_mul (Zpos m~0) 4503599627370496) as Hr.
    pose proof (Z.div_mul (Zpos m~0) 4503599627370496) as Hd.
    unfold Z.modulo, Z.div in Hr, Hd.
    destruct (Z.div_eucl _ _) as [q r]. simpl in Hr, Hd.
    rewrite Hr, Hd by lia. reflexivity.
Qed.

Lemma SFdiv_one x :
  valid_binary x = true -> SF64div x SFone64 = x.
Proof.
  destruct x as [[]|[]| |s m e]; intros Hv; try reflexivity.
  unfold SF64div, SFdiv, SFone64.
  destruct (valid_finite _ _ _ Hv) as [Hc _].
  destruct (SFdiv_core_one m e Hc) as [E|[Hd E]]; rewrite E, xorb_false_r.
  - now apply binary_round_aux_canonical.
  - now apply binary_round_aux_canonical_shifted.
Qed.

Lemma rounded_nonneg x : rounded false x -> is_nonneg x.
Proof. destruct 1; exact I. Qed.

Lemma is_pos_nonneg x : is_pos x -> is_nonneg x.
Proof. destruct x as [[]|[]| |[] ? ?]; simpl; trivial. Qed.

Lemma is_nonneg_signed x : is_nonneg x -> signed_as false x.
Proof. destruct x as [[]|[]| |[] ? ?]; simpl; intuition. Qed.

Lemma SFsub_diag x : is_fin x -> SF64sub x x = S754_zero false.
Proof.
  destruct x as [[]|[]| |s m e]; simpl; intros H; try reflexivity;
    try contradiction.
  unfold SF64sub, SFsub. now rewrite Z.sub_diag.
Qed.

Lemma SFmul_self x : signed_as false (SF64mul x x).
Proof.
  destruct x as [[]|[]| |s m e]; simpl; trivial.
  unfold SF64mul, SFmul. rewrite xorb_nilpotent.
  apply binary_round_aux_sign.
Qed.

Lemma SFsqrt_sign x :
  signed_as false (SF64sqrt x) \/ SF64sqrt x = S754_zero true.
Proof.
  destruct x as [[]|[]| |[] m e]; simpl; auto.
  left. unfold SF64sqrt, SFsqrt.
  destruct (SFsqrt_core_binary prec emax (Zpos m) e) as [[mz ez] lz].
  apply binary_round_aux_sign.
Qed.

Lemma binary_round_nonneg s m e : rounded s (binary_round prec emax s m e).
Proof.
  unfold binary_round. destruct (shl_align m e _) as [mz ez].
  apply binary_round_aux_nonneg. lia.
Qed.

Lemma shl_align_e m e e' :
  -1074 <= e -> -1074 <= e' -> -1074 <= snd (shl_align m e e').
Proof. unfold shl_align. destruct (e' - e); simpl; lia. Qed.

Lemma binary_round_pos m e :
  -1074 <= e -> is_pos (binary_round prec emax false m e).
Proof.
  intros He. unfold binary_round.
  pose proof (shl_align_e m e (fexp prec emax (Zpos (digits2_pos m) + e)) He) as H.
  destruct (shl_align m e _) as [mz ez]. simpl in H.
  assert (Hf : -1074 <= ez) by (apply H; rewrite fexp_eq; lia).
  pose proof (binary_round_aux_pos false (Zpos mz) ez loc_Exact ltac:(lia) Hf) as Hp.
  destruct (binary_round_aux _ _ _ _ _ _) as [|[]| |[] ? ?];
    simpl; trivial; try contradiction; discriminate.
Qed.

Lemma SFadd_nonneg x y :
  is_nonneg x -> is_nonneg y -> is_nonneg (SF64add x y).
Proof.
  destruct x as [[]|[]| |[] mx ex]; simpl; try contradiction; intros _;
  destruct y as [[]|[]| |[] my ey]; simpl; try contradiction; intros _;
    trivial.
  unfold SF64add, SFadd. cbn [cond_Zopp Z.add binary_normalize].
  apply rounded_nonneg, binary_round_nonneg.
Qed.

Lemma SFmul_finite_nonneg m e y :
  is_nonneg y -> is_nonneg (SF64mul (S754_finite false m e) y).
Proof.
  destruct y as [[]|[]| |[] my ey]; simpl; try contradiction; intros _;
    trivial.
  unfold SF64mul, SFmul. cbn [xorb].
  apply rounded_nonneg, binary_round_aux_nonneg. lia.
Qed.

Lemma SFadd_finite_pos m e y :
  valid_binary (S754_finite false m e) = true -> valid_binary y = true ->
  is_nonneg y -> is_pos (SF64add (S754_finite false m e) y).
Proof.
  intros Hx Hy.
  destruct y as [[]|[]| |[] my ey]; simpl; try contradiction; intros _;
    trivial.
  apply valid_finite in Hx, Hy.
  unfold SF64add, SFadd. cbn [cond_Zopp Z.add binary_normalize].
  apply binary_round_pos. lia.
Qed.

Lemma SFdiv_zero_pos y :
  is_pos y -> SF64div (S754_zero false) y = S754_zero false.
Proof. destruct y as [[]|[]| |[] ? ?]; simpl; intros H; trivial; contradiction. Qed.

Lemma SFadd_zero_r x :
  signed_as false x -> SF64add x (S754_zero false) = x.
Proof.
  destruct x as [[]|[]| |[] ? ?]; simpl; intros H; trivial; discriminate.
Qed.

Lemma SFltb_zero x :
  signed_as false x \/ x = S754_zero true -> SFltb x (S754_zero false) = false.
Proof.
  intros [H| ->]; [|reflexivity].
  destruct x as [[]|[]| |[] ? ?]; simpl in *; trivial; discriminate.
Qed.

Lemma SFleb_zero x :
  signed_as false x \/ x = S754_zero true -> x <> S754_nan ->
  SFleb (S754_zero false) x = true.
Proof.
  intros [H| ->] Hn; [|reflexivity].
  destruct x as [[]|[]| |[] ? ?]; simpl in *; trivial; try discriminate.
  now elim Hn.
Qed.

Lemma SFcompare_refl x : x <> S754_nan -> SFcompare x x = Some Eq.
Proof.
  destruct x as [[]|[]| |[] m e]; simpl; intros H; trivial;
    try (now elim H); rewrite Z.compare_refl, Pos.compare_cont_refl;
    reflexivity.
Qed.

End IEEE.

(** ** Squares and square roots in the reference model

    What a right shift leaves behind, rounding of a wide mantissa to 53
    bits, and from these: the square root of the rounded square of a normal
    number is its absolute value. *)

Module Square.
Import IEEE.
Local Open Scope Z_scope.

Lemma iter_pos_nat {A} (f : A -> A) p x :
  iter_pos f p x = Nat.iter (Pos.to_nat p) f x.
Proof.
  revert x. induction p as [p IH|p IH|]; intros x; simpl iter_pos.
  - rewrite !IH, Pos2Nat.inj_xI, <- Nat.iter_add.
    replace (S (2 * Pos.to_nat p)) with (S (Pos.to_nat p + Pos.to_nat p))%nat by lia.
    now rewrite Nat.iter_succ_r.
  - rewrite !IH, Pos2Nat.inj_xO, <- Nat.iter_add.
    f_equal. lia.
  - reflexivity.
Qed.

Lemma shr_1_split r :
  0 <= shr_m r ->
  0 <= shr_m (shr_1 r)
  /\ shr_m r = 2 * shr_m (shr_1 r) + (if shr_r (shr_1 r) then 1 else 0)
  /\ shr_s (shr_1 r) = shr_r r || shr_s r.
Proof.
  destruct r as [m rb sb]. destruct m as [|p|p]; simpl; intros H.
  - repeat split; lia.
  - destruct p; simpl; repeat split; lia.
  - lia.
Qed.

Lemma shr_1_start M :
  0 <= M -> shr_inv M 1 (shr_1 (Build_shr_record M false false)).
Proof.
  intros HM. destruct (shr_1_split (Build_shr_record M false false) HM)
    as (H0 & Hm & Hs). cbn [shr_m shr_r shr_s orb] in Hm, Hs.
  split; [exact H0|]. exists 0. rewrite Hs. cbn [Z.sub Z.pow Z.pow_pos].
  change (2 ^ 1) with 2. change (2 ^ (1 - 1)) with 1.
  repeat split; try lia; try discriminate;
    destruct (shr_r _); lia.
Qed.

Lemma shr_1_inv M k r :
  1 <= k -> shr_inv M k r -> shr_inv M (k + 1) (shr_1 r).
Proof.
  intros Hk (H0 & u & HM & Hu & Hs).
  destruct (shr_1_split r H0) as (H0' & Hm & Hs').
  split; [exact H0'|].
  exists ((if shr_r r then 2 ^ (k - 1) else 0) + u).
  replace (k + 1 - 1) with k by lia.
  assert (Hp : 2 ^ k = 2 * 2 ^ (k - 1)).
  { replace k with (Z.succ (k - 1)) at 1 by lia. apply Z.pow_succ_r. lia. }
  assert (Hp' : 2 ^ (k + 1) = 2 * 2 ^ k) by (apply Z.pow_succ_r; lia).
  assert (Hpos : 0 < 2 ^ (k - 1)) by (apply Z.pow_pos_nonneg; lia).
  repeat split.
  - rewrite HM, Hm at 1. rewrite Hp'. destruct (shr_r (shr_1 r)); ring.
  - destruct (shr_r r); lia.
  - destruct (shr_r r); lia.
  - rewrite Hs'. destruct (shr_r r); simpl; [lia|].
    intros E. apply Hs in E. lia.
  - rewrite Hs'. destruct (shr_r r); simpl; [reflexivity|].
    intros E. apply Hs. lia.
Qed.

Lemma iter_shr_1_inv M n :
  0 <= M ->
  shr_inv M (Z.of_nat (S n))
          (Nat.iter (S n) shr_1 (Build_shr_record M false false)).
Proof.
  intros HM. induction n as [|n IH].
  - now apply shr_1_start.
  - replace (Z.of_nat (S (S n))) with (Z.of_nat (S n) + 1) by lia.
    apply (shr_1_inv M (Z.of_nat (S n)) _ ltac:(lia) IH).
Qed.

Lemma shr_exact_inv M e p :
  0 <= M ->
  shr_inv M (Zpos p)
          (fst (shr (shr_record_of_loc M loc_Exact) e (Zpos p))).
Proof.
  intros HM. simpl. rewrite iter_pos_nat.
  destruct (Pos2Nat.is_succ p) as [n Hn]. rewrite Hn.
  replace (Zpos p) with (Z.of_nat (S n)) by lia.
  now apply iter_shr_1_inv.
Qed.

(** Rounding to nearest after a shift by [k] bits: at most half a unit
    away. *)
Lemma round_nearest_even_inv M k r :
  1 <= k -> shr_inv M k r ->
  let P := round_nearest_even (shr_m r) (loc_of_shr_record r) in
  shr_m r <= P <= shr_m r + 1 /\ 2 * Z.abs (P * 2 ^ k - M) <= 2 ^ k.
Proof.
  intros Hk (H0 & u & HM & Hu & Hs) P.
  split; [apply round_nearest_even_bounds|].
  assert (Hp : 2 ^ k = 2 * 2 ^ (k - 1)).
  { replace k with (Z.succ (k - 1)) at 1 by lia. apply Z.pow_succ_r. lia. }
  subst P. destruct r as [m rb sb]; cbn [shr_m shr_r shr_s] in *.
  assert (Eup : (m + 1) * 2 ^ k - M
                = 2 ^ k - (if rb then 2 ^ (k - 1) else 0) - u)
    by (rewrite HM; ring).
  assert (Edn : m * 2 ^ k - M = - (if rb then 2 ^ (k - 1) else 0) - u)
    by (rewrite HM; ring).
  destruct rb, sb; cbn [loc_of_shr_record round_nearest_even].
  - rewrite Eup. lia.
  - destruct (Z.even m); [rewrite Edn|rewrite Eup]; lia.
  - rewrite Edn. lia.
  - rewrite Edn. lia.
Qed.

Lemma digits2_log2 p : Zpos (digits2_pos p) = Z.log2 (Zpos p) + 1.
Proof. destruct p; simpl; rewrite ?digits2_size; lia. Qed.

Lemma digits2_unique p k :
  2 ^ (k - 1) <= Zpos p < 2 ^ k -> Zpos (digits2_pos p) = k.
Proof.
  intros H. rewrite digits2_log2.
  assert (Hk : 1 <= k).
  { destruct (Z_lt_le_dec k 1) as [Hlt|]; [|assumption].
    destruct (Z.eq_dec k 0) as [->|]; [simpl in H; lia|].
    rewrite (Z.pow_neg_r 2 k) in H by lia. lia. }
  rewrite (Z.log2_unique (Zpos p) (k - 1)); [lia|lia|].
  now replace (Z.succ (k - 1)) with k by lia.
Qed.

(** Rounding a positive integer [M] of more than 53 bits, away from
    underflow and overflow: a 53-bit mantissa within half a unit of [M]. *)
Lemma binary_round_aux_shift s M ex D n :
  Zdigits2 M = D -> 0 < M -> n = D - 53 -> 1 <= n ->
  -1074 <= ex + n -> ex + n + 1 <= 971 ->
  exists P E,
    binary_round_aux prec emax s M ex loc_Exact = S754_finite s P E
    /\ Zpos (digits2_pos P) = 53
    /\ n <= E - ex <= n + 1
    /\ 2 * Z.abs (Zpos P * 2 ^ (E - ex) - M) <= 2 ^ n.
Proof.
  intros HD HM Hn Hn1 Hlo Hhi.
  destruct M as [|pM|pM]; try lia. simpl in HD.
  pose proof (Zdigits2_bounds pM) as HMb. rewrite HD in HMb.
  destruct n as [|pn|pn]; try lia.
  unfold binary_round_aux.
  assert (E1 : shr_fexp prec emax (Zpos pM) ex loc_Exact
               = (fst (shr (shr_record_of_loc (Zpos pM) loc_Exact) ex (Zpos pn)),
                  ex + Zpos pn)).
  { unfold shr_fexp. simpl Zdigits2. rewrite fexp_eq, HD.
    replace (Z.max (D + ex - 53) (-1074) - ex) with (Zpos pn) by lia.
    reflexivity. }
  rewrite E1.
  pose proof (shr_exact_inv (Zpos pM) ex pn ltac:(lia)) as Hinv.
  set (r1 := fst (shr _ ex (Zpos pn))) in *.
  destruct (round_nearest_even_inv _ _ _ Hn1 Hinv) as [HP Herr].
  set (P := round_nearest_even (shr_m r1) (loc_of_shr_record r1)) in *.
  destruct Hinv as (H0 & u & HMeq & Hu & _).
  assert (Hpn : 0 < 2 ^ Zpos pn) by (apply Z.pow_pos_nonneg; lia).
  assert (Hp1 : 2 ^ Zpos pn = 2 * 2 ^ (Zpos pn - 1)).
  { replace (Zpos pn) with (Z.succ (Zpos pn - 1)) at 1 by lia.
    apply Z.pow_succ_r. lia. }
  assert (HD1 : 2 ^ (D - 1) = 2 ^ 52 * 2 ^ Zpos pn).
  { rewrite <- Z.pow_add_r by lia. f_equal. lia. }
  assert (HD2 : 2 ^ D = 2 ^ 53 * 2 ^ Zpos pn).
  { rewrite <- Z.pow_add_r by lia. f_equal. lia. }
  assert (Hm1 : 2 ^ 52 <= shr_m r1 < 2 ^ 53).
  { rewrite HD1, HD2 in HMb. destruct (shr_r r1); nia. }
  assert (HPb : 2 ^ 52 <= P <= 2 ^ 53) by lia.
  destruct (Z.eq_dec P (2 ^ 53)) as [EP|NP].
  - (* the mantissa carried into bit 54 *)
    exists (4503599627370496%positive), (ex + Zpos pn + 1).
    rewrite EP. split; [|split; [reflexivity|split; [lia|]]].
    + unfold shr_fexp. change (Zdigits2 (2 ^ 53)) with 54. rewrite fexp_eq.
      replace (Z.max (54 + (ex + Zpos pn) - 53) (-1074) - (ex + Zpos pn))
        with 1 by lia.
      cbn [shr iter_pos shr_record_of_loc shr_1 shr_m Z.pow Z.pow_pos Pos.iter
           Z.mul Pos.mul orb].
      replace (ex + Zpos pn + 1 <=? emax - prec) with true; [reflexivity|].
      symmetry. apply Z.leb_le. change (emax - prec) with 971. lia.
    + replace (ex + Zpos pn + 1 - ex) with (Zpos pn + 1) by lia.
      rewrite Z.pow_add_r by lia. rewrite EP in Herr.
      replace (4503599627370496 * (2 ^ Zpos pn * 2 ^ 1))
        with (2 ^ 53 * 2 ^ Zpos pn) by (change (2 ^ 53) with (4503599627370496 * 2 ^ 1); ring).
      exact Herr.
  - destruct P as [|pP|pP] eqn:EPp; try (change (2 ^ 52) with 4503599627370496 in HPb; lia).
    assert (HdP : Zpos (digits2_pos pP) = 53).
    { apply digits2_unique. change (53 - 1) with 52. lia. }
    exists pP, (ex + Zpos pn).
    split; [|split; [exact HdP|split; [lia|]]].
    + rewrite shr_fexp_canonical by lia.
      cbn [shr_record_of_loc shr_m].
      replace (ex + Zpos pn <=? emax - prec) with true; [reflexivity|].
      symmetry. apply Z.leb_le. change (emax - prec) with 971. lia.
    + replace (ex + Zpos pn - ex) with (Zpos pn) by lia. exact Herr.
Qed.

Lemma normal_mantissa m :
  Zpos (digits2_pos m) = 53 -> 2 ^ 52 <= Zpos m < 2 ^ 53.
Proof. intros H. pose proof (Zdigits2_bounds m) as Hb. now rewrite H in Hb. Qed.

(** The square of a normal number whose magnitude lies in
    [[2^-511, 2^511)]: its mantissa, scaled back, is within [m] of the exact
    square [m * m]. *)
Lemma SFmul_self_normal s m e :
  Zpos (digits2_pos m) = 53 -> -563 <= e <= 458 ->
  exists P k,
    SF64mul (S754_finite s m e) (S754_finite s m e)
    = S754_finite false P (e + e + k)
    /\ Zpos (digits2_pos P) = 53
    /\ (k = 52 \/ k = 53)
    /\ - (Zpos m - 1) <= Zpos P * 2 ^ k - Zpos m * Zpos m <= Zpos m.
Proof.
  intros Hd He. destruct (normal_mantissa m Hd) as [Hlo Hhi].
  unfold SF64mul, SFmul. rewrite xorb_nilpotent.
  change (Zpos (m * m)) with (Zpos m * Zpos m).
  set (M := Zpos m * Zpos m).
  assert (HM : 2 ^ 104 <= M < 2 ^ 106).
  { change (2 ^ 104) with (2 ^ 52 * 2 ^ 52).
    change (2 ^ 106) with (2 ^ 53 * 2 ^ 53). subst M. nia. }
  destruct (Z_lt_le_dec M (2 ^ 105)) as [Hlt|Hge].
  - assert (HD : Zdigits2 M = 105).
    { subst M. simpl Zdigits2. apply digits2_unique. simpl Z.sub. lia. }
    destruct (binary_round_aux_shift false M (e + e) 105 52 HD)
      as (P & E & HR & HdP & HE & Herr); try lia.
    exists P, (E - (e + e)). rewrite HR.
    split; [f_equal; lia|]. split; [exact HdP|]. split; [lia|].
    change (2 ^ 52) with 4503599627370496 in *. lia.
  - assert (HD : Zdigits2 M = 106).
    { subst M. simpl Zdigits2. apply digits2_unique. simpl Z.sub. lia. }
    destruct (binary_round_aux_shift false M (e + e) 106 53 HD)
      as (P & E & HR & HdP & HE & Herr); try lia.
    destruct (normal_mantissa P HdP) as [HPlo HPhi].
    assert (Hm1 : 2 ^ 52 + 1 <= Zpos m).
    { destruct (Z_lt_le_dec (Zpos m) (2 ^ 52 + 1)); [|assumption].
      assert (Zpos m = 2 ^ 52) by lia.
      change (2 ^ 105) with (2 * (2 ^ 52 * 2 ^ 52)) in Hge. subst M. nia. }
    assert (HMhi : M <= 2 ^ 106 - 2 ^ 54 + 1).
    { change (2 ^ 106 - 2 ^ 54 + 1) with ((2 ^ 53 - 1) * (2 ^ 53 - 1)).
      subst M. nia. }
    assert (Hk : E - (e + e) = 53).
    { destruct (Z.eq_dec (E - (e + e)) 53); [assumption|].
      assert (Hk54 : E - (e + e) = 54) by lia. rewrite Hk54 in Herr.
      change (2 ^ 54) with 18014398509481984 in *.
      change (2 ^ 53) with 9007199254740992 in *.
      change (2 ^ 52) with 4503599627370496 in *.
      change (2 ^ 106) with 81129638414606681695789005144064 in *. lia. }
    exists P, 53. rewrite HR. rewrite Hk in Herr.
    split; [f_equal; lia|]. split; [exact HdP|]. split; [lia|].
    change (2 ^ 52) with 4503599627370496 in *.
    change (2 ^ 53) with 9007199254740992 in *. lia.
Qed.

Lemma binary_round_aux_canonical_down m e l :
  valid_binary (S754_finite false m e) = true ->
  l = loc_Exact \/ l = loc_Inexact Lt ->
  binary_round_aux prec emax false (Zpos m) e l = S754_finite false m e.
Proof.
  intros H Hl. apply valid_finite in H. destruct H as [Hc He].
  unfold binary_round_aux. rewrite shr_fexp_canonical by assumption.
  assert (E : round_nearest_even (shr_m (shr_record_of_loc (Zpos m) l))
                (loc_of_shr_record (shr_record_of_loc (Zpos m) l)) = Zpos m)
    by (destruct Hl as [-> | ->]; reflexivity).
  rewrite E, shr_fexp_canonical by assumption.
  cbn [shr_record_of_loc shr_m].
  replace (e <=? emax - prec) with true; [reflexivity|].
  symmetry. apply Z.leb_le. exact He.
Qed.

Lemma binary_round_aux_canonical_up q m e :
  valid_binary (S754_finite false m e) = true ->
  Zpos (digits2_pos q) = Zpos (digits2_pos m) ->
  Zpos m = Zpos q + 1 ->
  binary_round_aux prec emax false (Zpos q) e (loc_Inexact Gt)
  = S754_finite false m e.
Proof.
  intros H Hd Hq. apply valid_finite in H. destruct H as [Hc He].
  unfold binary_round_aux. rewrite shr_fexp_canonical by (rewrite Hd; assumption).
  cbn [shr_record_of_loc shr_m loc_of_shr_record round_nearest_even].
  rewrite <- Hq, shr_fexp_canonical by assumption.
  cbn [shr_record_of_loc shr_m].
  replace (e <=? emax - prec) with true; [reflexivity|].
  symmetry. apply Z.leb_le. exact He.
Qed.

(** The square root of a float within [m] of [m * m * 4^e] is [m * 2^e]. *)
Lemma SFsqrt_near_square P k m e :
  Zpos (digits2_pos P) = 53 -> Zpos (digits2_pos m) = 53 ->
  -1074 <= e <= 971 ->
  k = 52 \/ k = 53 ->
  - (Zpos m - 1) <= Zpos P * 2 ^ k - Zpos m * Zpos m <= Zpos m ->
  SF64sqrt (S754_finite false P (e + e + k)) = S754_finite false m e.
Proof.
  intros HdP Hdm He Hk Herr.
  destruct (normal_mantissa m Hdm) as [Hmlo Hmhi].
  destruct (normal_mantissa P HdP) as [HPlo HPhi].
  assert (Hv : valid_binary (S754_finite false m e) = true).
  { simpl. unfold bounded, canonical_mantissa. rewrite fexp_eq, Hdm.
    apply andb_true_intro. split; [apply Z.eqb_eq; lia|].
    apply Z.leb_le. change (emax - prec) with 971. lia. }
  unfold SF64sqrt, SFsqrt, SFsqrt_core_binary.
  simpl Zdigits2. rewrite HdP, fexp_eq, !Z.div2_div.
  assert (Ee : Z.min (Z.max ((53 + (e + e + k) + 1) / 2 - 53) (-1074))
                     ((e + e + k) / 2) = e).
  { destruct Hk as [-> | ->].
    - replace ((53 + (e + e + 52) + 1) / 2) with (e + 53)
        by (apply Z.div_unique with 0; lia).
      replace ((e + e + 52) / 2) with (e + 26)
        by (apply Z.div_unique with 0; lia).
      lia.
    - replace ((53 + (e + e + 53) + 1) / 2) with (e + 53)
        by (apply Z.div_unique with 1; lia).
      replace ((e + e + 53) / 2) with (e + 26)
        by (apply Z.div_unique with 1; lia).
      lia. }
  rewrite Ee. replace (e + e + k - 2 * e) with k by lia.
  assert (Es : (match k with
                | Zpos _ => Z.shiftl (Zpos P) k
                | 0 => Zpos P
                | Zneg _ => 0
                end) = Zpos P * 2 ^ k).
  { destruct Hk as [-> | ->]; cbv iota; apply Z.shiftl_mul_pow2; lia. }
  rewrite Es. set (M := Zpos P * 2 ^ k) in *.
  assert (HM : 2 ^ 52 * 2 ^ 52 <= M).
  { subst M. destruct Hk as [-> | ->].
    - apply Z.mul_le_mono_nonneg_r; lia.
    - change (2 ^ 53) with (2 * 2 ^ 52).
      apply Z.le_trans with (Zpos P * 2 ^ 52);
        [apply Z.mul_le_mono_nonneg_r|]; lia. }
  pose proof (Z.sqrtrem_spec M ltac:(lia)) as Hsq.
  destruct (Z.sqrtrem M) as [Q R]. destruct Hsq as [HQR HR].
  assert (HQs : Z.sqrt M = Q).
  { apply Z.sqrt_unique.
    replace (Z.succ Q * Z.succ Q) with (Q * Q + 2 * Q + 1) by ring. lia. }
  destruct (Z_le_gt_dec (Zpos m * Zpos m) M) as [Hge|Hlt].
  - assert (HQ : Q = Zpos m).
    { rewrite <- HQs. apply Z.sqrt_unique.
      replace (Z.succ (Zpos m) * Z.succ (Zpos m))
        with (Zpos m * Zpos m + 2 * Zpos m + 1) by ring. lia. }
    clear HQs. subst Q.
    apply binary_round_aux_canonical_down; [exact Hv|].
    destruct (R =? 0); [now left|]. right.
    replace (R <=? Zpos m) with true; [reflexivity|].
    symmetry. apply Z.leb_le. lia.
  - assert (Hm1 : 2 ^ 52 + 1 <= Zpos m).
    { destruct (Z_lt_le_dec (Zpos m) (2 ^ 52 + 1)); [|assumption].
      assert (Em : Zpos m = 2 ^ 52) by lia.
      rewrite Em in Hlt. lia. }
    assert (HQ : Q = Zpos m - 1).
    { rewrite <- HQs. apply Z.sqrt_unique.
      replace (Z.succ (Zpos m - 1) * Z.succ (Zpos m - 1))
        with (Zpos m * Zpos m) by ring.
      replace ((Zpos m - 1) * (Zpos m - 1))
        with (Zpos m * Zpos m - 2 * Zpos m + 1) by ring. lia. }
    assert (HRm : Zpos m <= R).
    { rewrite HQ in HQR.
      replace ((Zpos m - 1) * (Zpos m - 1))
        with (Zpos m * Zpos m - 2 * Zpos m + 1) in HQR by ring. lia. }
    clear HQs. destruct Q as [|q|q]; try lia.
    replace (R =? 0) with false by (symmetry; apply Z.eqb_neq; lia).
    replace (R <=? Zpos q) with false by (symmetry; apply Z.leb_gt; lia).
    apply binary_round_aux_canonical_up; [exact Hv| |lia].
    rewrite Hdm. apply digits2_unique. change (53 - 1) with 52. lia.
Qed.

Theorem SFsqrt_square s m e :
  Zpos (digits2_pos m) = 53 -> -563 <= e <= 458 ->
  SF64sqrt (SF64mul (S754_finite s m e) (S754_finite s m e))
  = S754_finite false m e.
Proof.
  intros Hd He.
  destruct (SFmul_self_normal s m e Hd He) as (P & k & -> & HdP & Hk & Herr).
  apply SFsqrt_near_square; trivial. lia.
Qed.

End Square.

(** ** Magnitudes in the reference model

    Rounding keeps a result below [2^971] finite; bounds on products, sums,
    differences and square roots follow. *)

Module Magnitude.
Import IEEE Square.
Local Open Scope Z_scope.

Lemma Zdigits2_nonneg x : 0 <= Zdigits2 x.
Proof. destruct x; simpl; lia. Qed.

Lemma Zdigits2_log2 x : 0 < x -> Zdigits2 x = Z.log2 x + 1.
Proof. destruct x; try lia. intros _. apply digits2_log2. Qed.

(** [x < 2^k] bounds the number of digits of [x] by [k]. *)
Lemma Zdigits2_le x k : 0 <= x < 2 ^ k -> 0 <= k -> Zdigits2 x <= k.
Proof.
  intros [H0 Hx] Hk. destruct (Z.eq_dec x 0) as [->|Hn]; [exact Hk|].
  rewrite Zdigits2_log2 by lia.
  assert (Z.log2 x < k) by (apply Z.log2_lt_pow2; lia). lia.
Qed.

Lemma Zdigits2_lt x : 0 <= x -> x < 2 ^ Zdigits2 x.
Proof.
  intros H. destruct x as [|p|p]; try lia; [reflexivity|].
  apply Zdigits2_bounds.
Qed.

Lemma Zdigits2_shiftr x n :
  0 <= x -> 0 <= n -> Zdigits2 (Z.shiftr x n) <= Z.max 0 (Zdigits2 x - n).
Proof.
  intros Hx Hn. destruct (Z.eq_dec x 0) as [->|Hx0].
  { rewrite Z.shiftr_0_l. simpl. lia. }
  destruct (Z_lt_le_dec (Z.log2 x) n) as [Hlt|Hge].
  - rewrite Z.shiftr_eq_0 by lia. simpl. lia.
  - assert (Hs : 0 < Z.shiftr x n).
    { rewrite Z.shiftr_div_pow2 by lia. apply Z.div_str_pos.
      split; [apply Z.pow_pos_nonneg; lia|].
      apply Z.le_trans with (2 ^ Z.log2 x);
        [apply Z.pow_le_mono_r; lia | apply Z.log2_spec; lia]. }
    rewrite !Zdigits2_log2, Z.log2_shiftr by lia. lia.
Qed.

Lemma Zdigits2_succ x y :
  0 <= y -> y <= x <= y + 1 -> Zdigits2 x <= Zdigits2 y + 1.
Proof.
  intros Hy Hx. pose proof (Zdigits2_lt y Hy) as Hlt.
  pose proof (Zdigits2_nonneg y) as Hd.
  apply Zdigits2_le; [|lia].
  rewrite Z.pow_add_r by lia. change (2 ^ 1) with 2. lia.
Qed.

(** Rounding keeps the magnitude, up to one binade; it does not overflow
    below [2^971]. *)
Lemma binary_round_aux_bounded s M ex l k :
  0 <= M -> Zdigits2 M + ex <= k -> -1074 <= k <= 971 ->
  bounded_by (k + 1) (binary_round_aux prec emax s M ex l).
Proof.
  intros HM Hk Hr. unfold binary_round_aux.
  destruct (shr_fexp prec emax M ex l) as [r1 e1] eqn:E1.
  destruct (shr_fexp prec emax _ e1 loc_Exact) as [r2 e2] eqn:E2.
  pose proof (Zdigits2_nonneg M) as HdM.
  assert (H1 : 0 <= shr_m r1 /\ Zdigits2 (shr_m r1) + e1 <= k /\ e1 <= k).
  { change r1 with (fst (r1, e1)). change e1 with (snd (r1, e1)) at 3 4.
    rewrite <- E1. unfold shr_fexp.
    rewrite shr_e, shr_m_shiftr, shr_m_of_loc by (rewrite shr_m_of_loc; lia).
    rewrite fexp_eq.
    remember (Z.max (Zdigits2 M + ex - 53) (-1074) - ex) as n eqn:Hn.
    pose proof (Zdigits2_shiftr M (Z.max 0 n) HM ltac:(lia)).
    split; [apply Z.shiftr_nonneg; lia|]. lia. }
  destruct H1 as (H1 & Hd1 & He1).
  pose proof (round_nearest_even_bounds (shr_m r1) (loc_of_shr_record r1)) as HP.
  set (P := round_nearest_even _ _) in *.
  pose proof (Zdigits2_succ P (shr_m r1) H1 HP) as HdP.
  pose proof (Zdigits2_nonneg (shr_m r1)) as Hdn.
  assert (H2 : 0 <= shr_m r2 /\ Zdigits2 (shr_m r2) + e2 <= k + 1 /\ e2 <= k).
  { change r2 with (fst (r2, e2)). change e2 with (snd (r2, e2)) at 3 4.
    rewrite <- E2. unfold shr_fexp.
    rewrite shr_e, shr_m_shiftr, shr_m_of_loc by (rewrite shr_m_of_loc; lia).
    rewrite fexp_eq.
    remember (Z.max (Zdigits2 P + e1 - 53) (-1074) - e1) as n eqn:Hn.
    pose proof (Zdigits2_shiftr P (Z.max 0 n) ltac:(lia) ltac:(lia)).
    split; [apply Z.shiftr_nonneg; lia|]. lia. }
  destruct H2 as (H2 & Hd2 & He2).
  destruct (shr_m r2) as [|p|p]; try lia; [exact I|].
  replace (e2 <=? emax - prec) with true.
  - simpl in Hd2 |- *. lia.
  - symmetry. apply Z.leb_le. change (emax - prec) with 971. lia.
Qed.

Lemma bounded_by_le k k' x : bounded_by k x -> k <= k' -> bounded_by k' x.
Proof. destruct x; simpl; trivial. lia. Qed.

Lemma bounded_by_fin k x : bounded_by k x -> is_fin x.
Proof. destruct x; simpl; trivial. Qed.

Lemma SFmul_bounded kx ky x y :
  bounded_by kx x -> bounded_by ky y -> -1074 <= kx + ky <= 971 ->
  bounded_by (kx + ky + 1) (SF64mul x y).
Proof.
  destruct x as [sx|sx| |sx mx ex]; try contradiction;
  destruct y as [sy|sy| |sy my ey]; try contradiction; try (intros; exact I).
  cbn [bounded_by]. intros Hx Hy Hk. unfold SF64mul, SFmul.
  apply binary_round_aux_bounded; [lia| |exact Hk].
  change (Zpos (mx * my)) with (Zpos mx * Zpos my).
  change (IntDef.Z.add ex ey) with (ex + ey).
  pose proof (Zdigits2_bounds mx) as [_ Hbx].
  pose proof (Zdigits2_bounds my) as [_ Hby].
  assert (Hd : Zdigits2 (Zpos mx * Zpos my)
               <= Zpos (digits2_pos mx) + Zpos (digits2_pos my)).
  { apply Zdigits2_le; [|lia]. rewrite Z.pow_add_r by lia.
    split; [lia|]. apply Z.mul_lt_mono_nonneg; lia. }
  lia.
Qed.

Lemma shl_align_digits m e e0 :
  Zpos (digits2_pos (fst (shl_align m e e0))) + snd (shl_align m e e0)
  = Zpos (digits2_pos m) + e
  /\ Zpos (fst (shl_align m e e0)) = Zpos m * 2 ^ (e - snd (shl_align m e e0))
  /\ Z.min e e0 = snd (shl_align m e e0).
Proof.
  unfold shl_align. destruct (e0 - e) as [|d|d] eqn:E; cbn [fst snd].
  - rewrite Z.sub_diag. simpl. lia.
  - rewrite Z.sub_diag. simpl. lia.
  - change (Pos.iter xO m d) with (shift_pos d m).
    assert (Hv : Zpos (shift_pos d m) = Zpos m * 2 ^ Zpos d).
    { rewrite shift_pos_correct. change (Z.pow_pos 2 d) with (2 ^ Zpos d). ring. }
    replace (e - e0) with (Zpos d) by lia.
    split; [|split; [exact Hv|lia]].
    rewrite !digits2_log2, Hv, Z.log2_mul_pow2 by lia. lia.
Qed.

Lemma binary_round_bounded s m e k :
  Zpos (digits2_pos m) + e <= k -> -1074 <= k <= 971 ->
  bounded_by (k + 1) (binary_round prec emax s m e).
Proof.
  intros Hk Hr. unfold binary_round.
  destruct (shl_align_digits m e (fexp prec emax (Zpos (digits2_pos m) + e)))
    as (Hd & _ & _).
  destruct (shl_align m e _) as [mz ez]. cbn [fst snd] in Hd.
  apply binary_round_aux_bounded; [lia| |exact Hr].
  simpl Zdigits2. lia.
Qed.

Lemma binary_normalize_bounded M e sz k :
  Zdigits2 M + e <= k -> -1074 <= k <= 971 ->
  bounded_by (k + 1) (binary_normalize prec emax M e sz).
Proof.
  intros Hk Hr. destruct M as [|p|p]; simpl; trivial;
    now apply binary_round_bounded.
Qed.

(** The aligned mantissa of a datum below [2^k]. *)
Lemma aligned_lt m e e0 k :
  Zpos (digits2_pos m) + e <= k -> e0 <= e ->
  Zpos (fst (shl_align m e e0)) < 2 ^ (k - e0).
Proof.
  intros Hk He. destruct (shl_align_digits m e e0) as (_ & Hv & Hm).
  rewrite Hv, <- Hm, Z.min_r by lia.
  pose proof (Zdigits2_bounds m) as [_ Hb].
  apply Z.lt_le_trans with (2 ^ Zpos (digits2_pos m) * 2 ^ (e - e0)).
  - apply Z.mul_lt_mono_pos_r; [apply Z.pow_pos_nonneg; lia|exact Hb].
  - rewrite <- Z.pow_add_r by lia. apply Z.pow_le_mono_r; lia.
Qed.

Lemma Zdigits2_abs_lt M j : Z.abs M < 2 ^ j -> 0 <= j -> Zdigits2 M <= j.
Proof.
  intros H Hj. destruct M as [|p|p]; [exact Hj| |];
    apply (Zdigits2_le (Zpos p)); trivial; simpl in H; lia.
Qed.

Lemma sum_bounded sx mx ex sy my ey k (op : Z -> Z -> Z) :
  (forall u v, Z.abs (op u v) <= Z.abs u + Z.abs v) ->
  Zpos (digits2_pos mx) + ex <= k -> Zpos (digits2_pos my) + ey <= k ->
  -1074 <= k + 1 <= 971 ->
  bounded_by (k + 2)
    (binary_normalize prec emax
       (op (cond_Zopp sx (Zpos (fst (shl_align mx ex (Z.min ex ey)))))
           (cond_Zopp sy (Zpos (fst (shl_align my ey (Z.min ex ey))))))
       (Z.min ex ey) false).
Proof.
  intros Hop Hx Hy Hk.
  pose proof (aligned_lt mx ex (Z.min ex ey) k Hx ltac:(lia)) as Hax.
  pose proof (aligned_lt my ey (Z.min ex ey) k Hy ltac:(lia)) as Hay.
  set (Mx := Zpos (fst (shl_align mx ex (Z.min ex ey)))) in *.
  set (My := Zpos (fst (shl_align my ey (Z.min ex ey)))) in *.
  replace (k + 2) with (k + 1 + 1) by lia.
  apply binary_normalize_bounded; [|exact Hk].
  assert (Hj : 0 <= k - Z.min ex ey).
  { destruct (Z_lt_le_dec (k - Z.min ex ey) 0) as [Hneg|]; [|assumption].
    rewrite Z.pow_neg_r in Hax by assumption. subst Mx. lia. }
  assert (Hd : Zdigits2 (op (cond_Zopp sx Mx) (cond_Zopp sy My))
               <= k - Z.min ex ey + 1).
  { apply Zdigits2_abs_lt; [|lia].
    rewrite Z.pow_add_r by lia. change (2 ^ 1) with 2.
    pose proof (Hop (cond_Zopp sx Mx) (cond_Zopp sy My)) as H.
    assert (Z.abs (cond_Zopp sx Mx) = Mx) by (destruct sx; subst Mx; simpl; lia).
    assert (Z.abs (cond_Zopp sy My) = My) by (destruct sy; subst My; simpl; lia).
    lia. }
  lia.
Qed.

Lemma SFadd_bounded k x y :
  bounded_by k x -> bounded_by k y -> -1074 <= k + 1 <= 971 ->
  bounded_by (k + 2) (SF64add x y).
Proof.
  destruct x as [sx|sx| |sx mx ex]; try contradiction;
  destruct y as [sy|sy| |sy my ey]; try contradiction;
    cbn [bounded_by]; intros Hx Hy Hk.
  - destruct sx, sy; exact I.
  - change (Zpos (digits2_pos my) + ey <= k + 2). lia.
  - change (Zpos (digits2_pos mx) + ex <= k + 2). lia.
  - unfold SF64add, SFadd. apply sum_bounded; trivial. intros; lia.
Qed.

Lemma SFsub_bounded k x y :
  bounded_by k x -> bounded_by k y -> -1074 <= k + 1 <= 971 ->
  bounded_by (k + 2) (SF64sub x y).
Proof.
  destruct x as [sx|sx| |sx mx ex]; try contradiction;
  destruct y as [sy|sy| |sy my ey]; try contradiction;
    cbn [bounded_by]; intros Hx Hy Hk.
  - destruct sx, sy; exact I.
  - change (Zpos (digits2_pos my) + ey <= k + 2). lia.
  - change (Zpos (digits2_pos mx) + ex <= k + 2). lia.
  - unfold SF64sub, SFsub. apply sum_bounded; trivial. intros; lia.
Qed.

Lemma SFsqrt_core_nonneg m e :
  let '(q, _, _) := SFsqrt_core_binary prec emax (Zpos m) e in 0 <= q.
Proof.
  unfold SFsqrt_core_binary.
  set (m' := match _ - _ with Zpos _ => _ | 0 => _ | Zneg _ => _ end).
  assert (Hm : 0 <= m').
  { subst m'. destruct (_ - _); try lia. apply Z.shiftl_nonneg. lia. }
  pose proof (Z.sqrtrem_spec m' Hm) as H.
  destruct (Z.sqrtrem m') as [q r]. lia.
Qed.

Lemma SFsqrt_nonneg x : is_nonneg x -> is_nonneg (SF64sqrt x).
Proof.
  destruct x as [[]|[]| |[] m e]; simpl; trivial. intros _.
  unfold SF64sqrt, SFsqrt. pose proof (SFsqrt_core_nonneg m e) as H.
  destruct (SFsqrt_core_binary prec emax (Zpos m) e) as [[q e'] l].
  now apply rounded_nonneg, binary_round_aux_nonneg.
Qed.

(** The square root of a datum below [2^k] is below [2^((k+1)/2 + 1)]. *)
Lemma SFsqrt_bounded k x :
  bounded_by k x -> is_nonneg x \/ x = S754_zero true -> 0 <= k <= 1942 ->
  bounded_by ((k + 1) / 2 + 1) (SF64sqrt x).
Proof.
  intros Hb Hs Hk. destruct Hs as [Hs| ->]; [|exact I].
  destruct x as [[]|[]| |[] m e]; try contradiction; try exact I.
  cbn [bounded_by] in Hb. unfold SF64sqrt, SFsqrt, SFsqrt_core_binary.
  simpl Zdigits2. rewrite fexp_eq, !Z.div2_div.
  set (d := Zpos (digits2_pos m)) in *.
  remember (Z.min (Z.max ((d + e + 1) / 2 - 53) (-1074)) (e / 2)) as e' eqn:He'.
  change (IntDef.Z.sub e (IntDef.Z.mul 2 e')) with (e - 2 * e').
  pose proof (Z.div_mod e 2 ltac:(lia)) as He2.
  pose proof (Z.mod_pos_bound e 2 ltac:(lia)) as He2'.
  assert (Hs0 : 0 <= e - 2 * e') by lia.
  set (m' := match e - 2 * e' with Zpos _ => _ | 0 => _ | Zneg _ => _ end).
  assert (Hm' : m' = Zpos m * 2 ^ (e - 2 * e')).
  { subst m'. destruct (e - 2 * e') as [|p|p] eqn:Es;
      [rewrite Z.pow_0_r; ring | apply Z.shiftl_mul_pow2; lia | lia]. }
  clearbody m'.
  pose proof (Z.sqrtrem_spec m' ltac:(rewrite Hm'; apply Z.mul_nonneg_nonneg;
                                       [lia|apply Z.pow_nonneg; lia])) as Hsq.
  destruct (Z.sqrtrem m') as [q r]. destruct Hsq as [Hqr Hr].
  set (l := if r =? 0 then loc_Exact else _). clearbody l.
  pose proof (Z.div_mod (d + (e - 2 * e') + 1) 2 ltac:(lia)) as Hj.
  pose proof (Z.mod_pos_bound (d + (e - 2 * e') + 1) 2 ltac:(lia)) as Hj'.
  set (j := (d + (e - 2 * e') + 1) / 2) in *.
  assert (Hd0 : 0 < d) by (subst d; lia).
  assert (Hq : q < 2 ^ j).
  { destruct (Z_lt_le_dec q (2 ^ j)) as [|Hge]; [assumption|exfalso].
    assert (Hpj : 0 < 2 ^ j) by (apply Z.pow_pos_nonneg; lia).
    assert (Hqq : 2 ^ j * 2 ^ j <= q * q)
      by (apply Z.mul_le_mono_nonneg; lia).
    rewrite <- Z.pow_add_r in Hqq by lia.
    assert (Hm'lt : m' < 2 ^ (d + (e - 2 * e'))).
    { rewrite Hm', Z.pow_add_r by lia.
      apply Z.mul_lt_mono_pos_r; [apply Z.pow_pos_nonneg; lia|].
      apply Zdigits2_bounds. }
    assert (2 ^ (d + (e - 2 * e')) <= 2 ^ (j + j))
      by (apply Z.pow_le_mono_r; lia).
    lia. }
  pose proof (Z.div_mod (k + 1) 2 ltac:(lia)) as Hk2.
  pose proof (Z.mod_pos_bound (k + 1) 2 ltac:(lia)) as Hk2'.
  apply binary_round_aux_bounded; [lia| |lia].
  assert (Zdigits2 q <= j) by (apply Zdigits2_le; lia).
  lia.
Qed.

Lemma SFdiv_fin_pos x y :
  is_fin x -> is_pos y -> SF64div x y <> S754_nan.
Proof.
  destruct x as [sx|sx| |sx mx ex]; try contradiction;
  destruct y as [[]|[]| |[] my ey]; try contradiction; try discriminate.
  intros _ _. unfold SF64div, SFdiv, SFdiv_core_binary.
  set (m' := match _ - _ - _ with Zpos _ => _ | 0 => _ | Zneg _ => _ end).
  assert (Hm : 0 <= m').
  { subst m'. destruct (_ - _ - _); try lia. apply Z.shiftl_nonneg. lia. }
  pose proof (Z.div_pos m' (Zpos my) Hm ltac:(lia)) as Hq.
  unfold Z.div in Hq. destruct (Z.div_eucl m' (Zpos my)) as [q r].
  cbn [fst] in Hq.
  pose proof (binary_round_aux_nonneg (xorb sx false) q
                (Z.min (fexp prec emax (Zdigits2 (Zpos mx) + ex
                                        - (Zdigits2 (Zpos my) + ey)))
                       (ex - ey))
                (new_location (Zpos my) r) Hq) as H.
  intros E. rewrite E in H. inversion H.
Qed.

Lemma SFmul_self_nonneg x : x <> S754_nan -> is_nonneg (SF64mul x x).
Proof.
  intros Hn. destruct x as [[]|[]| |s m e]; try exact I; [now elim Hn|].
  unfold SF64mul, SFmul. rewrite xorb_nilpotent.
  apply rounded_nonneg, binary_round_aux_nonneg. lia.
Qed.

Lemma bounded_by_not_nan k x : bounded_by k x -> x <> S754_nan.
Proof. destruct x; simpl; intros H; try discriminate; contradiction. Qed.

End Magnitude.

(** ** The same facts on primitive floats *)

Section Float.
Import IEEE.

Lemma Prim2SF_nan x : Prim2SF x = S754_nan -> x = nan.
Proof. intros H. apply Prim2SF_inj. now rewrite H. Qed.

Lemma Prim2SF_zero x s :
  Prim2SF x = S754_zero s -> x = if s then neg_zero else zero.
Proof. intros H. apply Prim2SF_inj. rewrite H. now destruct s. Qed.

Lemma is_nan_spec x : is_nan x = true <-> x = nan.
Proof.
  unfold is_nan. rewrite FloatAxioms.eqb_spec. unfold SFeqb. split.
  - intros H. apply Prim2SF_nan.
    destruct (Prim2SF x) eqn:E; trivial;
      rewrite SFcompare_refl in H by discriminate; discriminate.
  - intros ->. reflexivity.
Qed.

Lemma is_finite_spec x : is_finite x = true <-> is_fin (Prim2SF x).
Proof.
  unfold is_finite, is_nan, is_infinity.
  rewrite !FloatAxioms.eqb_spec, abs_spec. unfold SFeqb.
  change (Prim2SF infinity) with (S754_infinity false).
  destruct (Prim2SF x) as [[]|[]| |[] m e]; simpl;
    try rewrite Z.compare_refl, Pos.compare_cont_refl; simpl;
    intuition discriminate.
Qed.

Lemma div_one x : x / 1 = x.
Proof.
  apply Prim2SF_inj. rewrite div_spec.
  change (Prim2SF 1) with SFone64. apply SFdiv_one, Prim2SF_valid.
Qed.

Lemma sub_diag x : is_finite x = true -> x - x = 0.
Proof.
  intros H. apply Prim2SF_inj. rewrite sub_spec.
  change (Prim2SF 0) with (S754_zero false).
  now apply SFsub_diag, is_finite_spec.
Qed.

Lemma sqrt_range x :
  sqrt x = nan \/ sqrt x = neg_zero \/ nonneg (sqrt x).
Proof.
  unfold nonneg. rewrite sqrt_spec.
  destruct (SFsqrt_sign (Prim2SF x)) as [H|H].
  - destruct (SF64sqrt (Prim2SF x)) as [[]|[]| |[] m e] eqn:E;
      simpl in H; try discriminate;
      first [ right; right; exact I
            | left; apply Prim2SF_nan; rewrite sqrt_spec; exact E ].
  - right; left. apply (Prim2SF_zero _ true). now rewrite sqrt_spec.
Qed.

Lemma ltb_zero_false x :
  signed_as false (Prim2SF x) \/ x = neg_zero -> (x <? 0) = false.
Proof.
  intros H. rewrite ltb_spec. change (Prim2SF 0) with (S754_zero false).
  apply SFltb_zero. destruct H as [H| ->]; auto.
Qed.

Lemma leb_zero_true x :
  x = neg_zero \/ nonneg x -> (0 <=? x) = true.
Proof.
  intros H. rewrite leb_spec. change (Prim2SF 0) with (S754_zero false).
  destruct H as [->|H]; [reflexivity|]. unfold nonneg in H.
  apply SFleb_zero.
  - left. now apply is_nonneg_signed.
  - intros E. now rewrite E in H.
Qed.

Lemma mul_self_sign x : signed_as false (Prim2SF (x * x)).
Proof. rewrite mul_spec. apply SFmul_self. Qed.

Lemma add_zero_r x : signed_as false (Prim2SF x) -> x + 0 = x.
Proof.
  intros H. apply Prim2SF_inj. rewrite add_spec.
  change (Prim2SF 0) with (S754_zero false). now apply SFadd_zero_r.
Qed.

(** [1 + k * c] for a positive constant [k] and a chroma [c]. *)
Lemma scale_positive k mk ek c :
  Prim2SF k = S754_finite false mk ek ->
  is_finite c = true ->
  c = neg_zero \/ nonneg c ->
  positive_or_inf (1 + k * c).
Proof.
  intros Hk Hf Hc. unfold positive_or_inf.
  rewrite add_spec. change (Prim2SF 1) with SFone64.
  destruct Hc as [->|Hc].
  - rewrite mul_spec, Hk. exact I.
  - apply SFadd_finite_pos; [reflexivity | apply Prim2SF_valid |].
    rewrite mul_spec, Hk. now apply SFmul_finite_nonneg.
Qed.

Lemma div_zero_positive y : positive_or_inf y -> 0 / y = 0.
Proof.
  intros H. apply Prim2SF_inj. rewrite div_spec.
  change (Prim2SF 0) with (S754_zero false). now apply SFdiv_zero_pos.
Qed.

Lemma eqb_zero_cases a : (a =? 0) = true -> a = 0 \/ a = neg_zero.
Proof.
  rewrite FloatAxioms.eqb_spec. change (Prim2SF 0) with (S754_zero false).
  intros H. destruct (Prim2SF a) as [[]|[]| |[] m e] eqn:E;
    try discriminate H.
  - right. now apply (Prim2SF_zero a true).
  - left. now apply (Prim2SF_zero a false).
Qed.

End Float.

(** ** Squares, square roots and magnitudes on primitive floats *)

Section SqrtSquare.
Import IEEE Square.

Lemma normal_range x :
  (0x1p-511 <=? abs x) = true -> (abs x <? 0x1p511) = true ->
  exists s m e,
    Prim2SF x = S754_finite s m e
    /\ Zpos (digits2_pos m) = 53%Z /\ (-563 <= e <= 458)%Z.
Proof.
  rewrite leb_spec, ltb_spec, abs_spec.
  change (Prim2SF 0x1p-511)
    with (S754_finite false 4503599627370496 (-563)).
  change (Prim2SF 0x1p511) with (S754_finite false 4503599627370496 459).
  pose proof (Prim2SF_valid x) as Hv.
  destruct (Prim2SF x) as [[]|[]| |s m e]; try discriminate.
  apply valid_finite in Hv. destruct Hv as [Hc He].
  unfold SFleb, SFltb. cbn [SFabs SFcompare].
  intros Hlo Hhi. exists s, m, e. split; [reflexivity|].
  assert (Hlo' : (-563 <= e)%Z).
  { destruct (Z.compare_spec (-563) e); try lia; discriminate Hlo. }
  assert (Hd : Zpos (digits2_pos m) = 53%Z) by lia.
  split; [exact Hd|]. split; [exact Hlo'|].
  destruct (Z.compare_spec e 459) as [E|E|E]; try lia; try discriminate Hhi.
  rewrite Pos.compare_cont_spec in Hhi.
  destruct (Pos.compare_spec m 4503599627370496) as [E'|E'|E'];
    try discriminate Hhi.
  destruct (normal_mantissa m Hd) as [Hm _]. clear Hlo Hhi.
  apply Pos2Z.pos_lt_pos in E'.
  change (2 ^ 52)%Z with 4503599627370496%Z in Hm. lia.
Qed.

(** Squaring then taking the square root gives the absolute value back,
    for magnitudes in [[2^-511, 2^511)]: the square neither underflows nor
    overflows. *)
Lemma sqrt_square_abs x :
  (0x1p-511 <=? abs x) = true -> (abs x <? 0x1p511) = true ->
  sqrt (x * x) = abs x.
Proof.
  intros Hlo Hhi. destruct (normal_range x Hlo Hhi) as (s & m & e & E & Hd & He).
  apply Prim2SF_inj. rewrite sqrt_spec, mul_spec, abs_spec, E.
  now apply SFsqrt_square.
Qed.

End SqrtSquare.

Section Bounds.
Import IEEE Magnitude.

Lemma small_bnd v : small v = true -> bnd 201 v.
Proof.
  unfold small, bnd. rewrite leb_spec, abs_spec.
  change (Prim2SF 0x1p200) with (S754_finite false 4503599627370496 148).
  pose proof (Prim2SF_valid v) as Hv.
  destruct (Prim2SF v) as [[]|[]| |s m e]; try discriminate; try (intros; exact I).
  apply valid_finite in Hv. destruct Hv as [Hc He].
  unfold SFleb. cbn [SFabs SFcompare bounded_by]. intros H.
  destruct (Z.compare_spec e 148) as [E|E|E]; try lia; discriminate H.
Qed.

Lemma bnd_mul kx ky x y :
  bnd kx x -> bnd ky y -> (-1074 <= kx + ky <= 971)%Z ->
  bnd (kx + ky + 1) (x * y).
Proof. unfold bnd. rewrite mul_spec. apply SFmul_bounded. Qed.

Lemma bnd_add k x y :
  bnd k x -> bnd k y -> (-1074 <= k + 1 <= 971)%Z -> bnd (k + 2) (x + y).
Proof. unfold bnd. rewrite add_spec. apply SFadd_bounded. Qed.

Lemma bnd_sub k x y :
  bnd k x -> bnd k y -> (-1074 <= k + 1 <= 971)%Z -> bnd (k + 2) (x - y).
Proof. unfold bnd. rewrite sub_spec. apply SFsub_bounded. Qed.

Lemma bnd_le k k' x : bnd k x -> (k <= k')%Z -> bnd k' x.
Proof. apply bounded_by_le. Qed.

Lemma bnd_finite k x : bnd k x -> is_finite x = true.
Proof. intros H. apply is_finite_spec. eapply bounded_by_fin, H. Qed.

Lemma bnd_sqrt k x :
  bnd k x -> nonneg x \/ x = neg_zero -> (0 <= k <= 1942)%Z ->
  bnd ((k + 1) / 2 + 1) (sqrt x).
Proof.
  unfold bnd, nonneg. rewrite sqrt_spec. intros Hb Hs Hk.
  apply SFsqrt_bounded; trivial. destruct Hs as [Hs| ->]; auto.
Qed.

Lemma nonneg_square k x : bnd k x -> nonneg (x * x).
Proof.
  unfold bnd, nonneg. rewrite mul_spec. intros H.
  eapply SFmul_self_nonneg, bounded_by_not_nan, H.
Qed.

Lemma nonneg_add x y : nonneg x -> nonneg y -> nonneg (x + y).
Proof. unfold nonneg. rewrite add_spec. apply SFadd_nonneg. Qed.

Lemma nonneg_sqrt x : nonneg x -> nonneg (sqrt x).
Proof. unfold nonneg. rewrite sqrt_spec. apply SFsqrt_nonneg. Qed.

(** A quotient of a finite number by a positive one, squared. *)
Lemma nonneg_square_quotient x y :
  is_finite x = true -> positive_or_inf y -> nonneg (x / y * (x / y)).
Proof.
  unfold nonneg, positive_or_inf. rewrite is_finite_spec, mul_spec, div_spec.
  intros Hx Hy. now apply SFmul_self_nonneg, SFdiv_fin_pos.
Qed.

(** A finite number that is not below 0. *)
Lemma not_negative_class x :
  is_finite x = true -> (x <? 0) = false -> nonneg x \/ x = neg_zero.
Proof.
  rewrite is_finite_spec, ltb_spec. unfold nonneg.
  change (Prim2SF 0) with (S754_zero false).
  destruct (Prim2SF x) as [[]|[]| |[] m e] eqn:E; simpl; try contradiction;
    try discriminate; auto.
  intros _ _. right. now apply (Prim2SF_zero x true).
Qed.

Lemma chroma_small a b :
  small a = true -> small b = true ->
  bnd 204 (sqrt (a * a + b * b)) /\ nonneg (sqrt (a * a + b * b)).
Proof.
  intros Ha Hb. apply small_bnd in Ha, Hb.
  assert (Haa : bnd 403 (a * a)) by (apply (bnd_mul 201 201); trivial; lia).
  assert (Hbb : bnd 403 (b * b)) by (apply (bnd_mul 201 201); trivial; lia).
  assert (Hs : bnd 405 (a * a + b * b)) by (apply (bnd_add 403); trivial; lia).
  assert (Hn : nonneg (a * a + b * b))
    by (apply nonneg_add; eapply nonneg_square; eassumption).
  split; [|now apply nonneg_sqrt].
  apply (bnd_sqrt 405); auto. lia.
Qed.

(** Components of ordinary size have a finite chroma. *)
Lemma small_chroma_finite a b :
  small a = true -> small b = true ->
  is_finite (sqrt (a * a + b * b)) = true.
Proof.
  intros Ha Hb. destruct (chroma_small a b Ha Hb) as [H _].
  eapply bnd_finite, H.
Qed.

End Bounds.

(** ** The literals of the source *)

Lemma literals_nearest :
  nearest_double 45 3 0.045 /\ nearest_double 15 3 0.015
  /\ nearest_double 8856451 9 0.008856451
  /\ nearest_double 7787037 6 7.787037.
Proof. repeat split. Qed.

(** ** distanceTo *)

Section DistanceTo.
Import IEEE.

(** Case analysis on the next guard [x < 0 ? ... : ...] of the goal. *)
Ltac case_guard :=
  match goal with
  | |- context [if ?x <? 0 then _ else _] => destruct (x <? 0) eqn:?
  end.

Lemma sqrt_zero : sqrt 0 = 0.
Proof. reflexivity. Qed.

(** C1. For every pair of colours, [distanceTo] computes the CIE94
    difference of the specification: deltaL, the two chromas and deltaC,
    the hue term under a square root whose radicand is clamped to 0 when
    negative, the scale factors from the first chroma only and the square
    root of the clamped sum. *)
Theorem distanceTo_is_CIE94 l1 a1 b1 l2 a2 b2 :
  LABColor.distanceTo (LABColor.new l1 a1 b1) (LABColor.new l2 a2 b2)
  = CIE94 l1 a1 b1 l2 a2 b2.
Proof.
  unfold LABColor.distanceTo, CIE94, clamp0.
  cbn [LABColor.values LABColor.new get nth].
  rewrite div_one.
  set (h := (a1 - a2) * (a1 - a2) + (b1 - b2) * (b1 - b2) - _).
  destruct (h <? 0); [rewrite sqrt_zero|]; case_guard;
    try rewrite sqrt_zero; reflexivity.
Qed.

(** A finite chroma is [-0] or not negative. *)
Lemma chroma_class a b :
  is_finite (sqrt (a * a + b * b)) = true ->
  sqrt (a * a + b * b) = neg_zero \/ nonneg (sqrt (a * a + b * b)).
Proof.
  intros Hf. destruct (sqrt_range (a * a + b * b)) as [E|H]; [|exact H].
  rewrite E in Hf. discriminate.
Qed.

Lemma SFmul_infinity_self s :
  SF64mul (S754_infinity s) (S754_infinity s) = S754_infinity false.
Proof. now destruct s. Qed.

Lemma SF_chroma_fin x y :
  is_fin (SF64sqrt (SF64add (SF64mul x x) (SF64mul y y))) ->
  is_fin x /\ is_fin y.
Proof.
  intros H. pose proof (SFmul_self x) as Hx. pose proof (SFmul_self y) as Hy.
  split.
  - destruct x as [s|s| |s m e]; try exact I.
    + rewrite SFmul_infinity_self in H.
      destruct (SF64mul y y) as [[]|[]| |[] ? ?]; simpl in *;
        trivial; discriminate.
    + exact H.
  - destruct y as [s|s| |s m e]; try exact I.
    + rewrite SFmul_infinity_self in H.
      destruct (SF64mul x x) as [[]|[]| |[] ? ?]; simpl in *;
        trivial; discriminate.
    + change (SF64mul S754_nan S754_nan) with S754_nan in H.
      destruct (SF64mul x x) as [[]|[]| |[] ? ?]; simpl in *;
        trivial; discriminate.
Qed.

(** The chroma is finite only if [a] and [b] are. *)
Lemma chroma_finite_components a b :
  is_finite (sqrt (a * a + b * b)) = true ->
  is_finite a = true /\ is_finite b = true.
Proof.
  rewrite !is_finite_spec, sqrt_spec, add_spec, !mul_spec.
  apply SF_chroma_fin.
Qed.

(** Two colours with the same [a] and [b], of finite chroma: every term but
    the lightness term vanishes. *)
Lemma distanceTo_shared_ab l1 l2 a b :
  is_finite (sqrt (a * a + b * b)) = true ->
  LABColor.distanceTo (LABColor.new l1 a b) (LABColor.new l2 a b)
  = sqrt ((l1 - l2) * (l1 - l2)).
Proof.
  intros Hc. destruct (chroma_finite_components a b Hc) as [Ha Hb].
  unfold LABColor.distanceTo.
  cbn [LABColor.values LABColor.new get nth].
  pose proof (chroma_class a b Hc) as Hcl.
  set (c := sqrt (a * a + b * b)) in *.
  rewrite (sub_diag a), (sub_diag b), (sub_diag c), div_one by assumption.
  replace (0 * 0 + 0 * 0 - 0 * 0) with 0 by reflexivity.
  replace (0 <? 0) with false by reflexivity.
  rewrite sqrt_zero.
  rewrite !div_zero_positive
    by (eapply scale_positive; [reflexivity | assumption | assumption]).
  replace (0 * 0) with 0 by reflexivity.
  rewrite !(add_zero_r ((l1 - l2) * (l1 - l2))) by apply mul_self_sign.
  rewrite ltb_zero_false by (left; apply mul_self_sign).
  reflexivity.
Qed.

(** C3 as stated fails in both directions.  [(0, 1e200, 0)] has finite
    components, its chroma overflows and its distance to itself is [NaN],
    not 0.  [(1e-200, 0.5, 0.5)] and [(0, 0.5, 0.5)] differ in lightness,
    the square of the difference underflows and their distance is 0. *)
Lemma distanceTo_zero_iff_counterexample :
  (let X := LABColor.new 0 1e200 0 in
   finite_components X = true
   /\ (LABColor.distanceTo X X =? 0) = false
   /\ LABColor.distanceTo X X = nan)
  /\
  (let X := LABColor.new 1e-200 0.5 0.5 in
   let Y := LABColor.new 0 0.5 0.5 in
   finite_components X = true /\ finite_components Y = true
   /\ (LABColor.distanceTo X Y =? 0) = true
   /\ (LABColor.l X =? LABColor.l Y) = false).
Proof. repeat split. Qed.

(** Components of ordinary size: no intermediate overflows, no [NaN]
    arises and the distance is a number that is not negative. *)
Lemma distanceTo_small_nonneg (this color : LABColor.t) :
  small_components this = true -> small_components color = true ->
  (0 <=? LABColor.distanceTo this color) = true.
Proof.
  unfold small_components, LABColor.distanceTo, LABColor.l, LABColor.a,
    LABColor.b.
  set (l1 := get (LABColor.values this) 0).
  set (a1 := get (LABColor.values this) 1).
  set (b1 := get (LABColor.values this) 2).
  set (l2 := get (LABColor.values color) 0).
  set (a2 := get (LABColor.values color) 1).
  set (b2 := get (LABColor.values color) 2).
  intros H1 H2.
  apply andb_prop in H1, H2. destruct H1 as [H1 Hb1], H2 as [H2 Hb2].
  apply andb_prop in H1, H2. destruct H1 as [Hl1 Ha1], H2 as [Hl2 Ha2].
  destruct (chroma_small a1 b1 Ha1 Hb1) as [Hc1 Hn1].
  destruct (chroma_small a2 b2 Ha2 Hb2) as [Hc2 Hn2].
  apply small_bnd in Hl1, Ha1, Hb1, Hl2, Ha2, Hb2.
  cbv zeta.
  set (c1 := sqrt (a1 * a1 + b1 * b1)) in *.
  set (c2 := sqrt (a2 * a2 + b2 * b2)) in *.
  rewrite div_one.
  assert (HdL : bnd 203 (l1 - l2)) by (apply (bnd_sub 201); trivial; lia).
  assert (HdA : bnd 203 (a1 - a2)) by (apply (bnd_sub 201); trivial; lia).
  assert (HdB : bnd 203 (b1 - b2)) by (apply (bnd_sub 201); trivial; lia).
  assert (HdC : bnd 206 (c1 - c2)) by (apply (bnd_sub 204); trivial; lia).
  set (dL := l1 - l2) in *. set (dA := a1 - a2) in *.
  set (dB := b1 - b2) in *. set (dC := c1 - c2) in *.
  assert (HR : bnd 415 (dA * dA + dB * dB - dC * dC)).
  { apply (bnd_sub 413); [| |lia].
    - apply (bnd_le 409 413); [|lia]. apply (bnd_add 407); [| |lia];
        apply (bnd_mul 203 203); trivial; lia.
    - apply (bnd_mul 206 206); trivial; lia. }
  set (R := dA * dA + dB * dB - dC * dC) in *.
  assert (HdH : is_finite (if R <? 0 then 0 else sqrt R) = true).
  { destruct (R <? 0) eqn:E; [reflexivity|].
    apply (bnd_finite ((415 + 1) / 2 + 1)). apply bnd_sqrt; [exact HR| |lia].
    apply not_negative_class; [|exact E]. eapply bnd_finite, HR. }
  set (dH := if R <? 0 then 0 else sqrt R) in *.
  assert (Hsc : positive_or_inf (1 + 0.045 * c1)).
  { eapply scale_positive; [reflexivity| |now right]. eapply bnd_finite, Hc1. }
  assert (Hsh : positive_or_inf (1 + 0.015 * c1)).
  { eapply scale_positive; [reflexivity| |now right]. eapply bnd_finite, Hc1. }
  assert (Hi : nonneg (dL * dL
                       + dC / (1 + 0.045 * c1) * (dC / (1 + 0.045 * c1))
                       + dH / (1 + 0.015 * c1) * (dH / (1 + 0.015 * c1)))).
  { repeat apply nonneg_add.
    - eapply nonneg_square, HdL.
    - apply nonneg_square_quotient; [eapply bnd_finite, HdC|exact Hsc].
    - apply nonneg_square_quotient; [exact HdH|exact Hsh]. }
  rewrite ltb_zero_false by (left; apply is_nonneg_signed, Hi).
  apply leb_zero_true. right. now apply nonneg_sqrt.
Qed.


(** C4, as amended. For every pair of colours whose components have a
    magnitude of at most [2^200], [distanceTo] returns a value [>= 0], also
    when the hue radicand is negative before the clamp; for every pair of
    colours whatever, it returns [NaN] or a value [>= 0], never a negative
    number, and the two guarded square roots are only applied to arguments
    that are not below 0. *)
Theorem distanceTo_never_negative (this color : LABColor.t) :
  (small_components this = true -> small_components color = true ->
   (0 <=? LABColor.distanceTo this color) = true)
  /\ (LABColor.distanceTo this color = nan
      \/ (0 <=? LABColor.distanceTo this color) = true)
  /\ Forall (fun x => (x <? 0) = false) (guarded_sqrt_arguments this color).
Proof.
  split; [apply distanceTo_small_nonneg|]. split.
  - unfold LABColor.distanceTo. cbv zeta.
    match goal with
    | |- (if ?i <? 0 then _ else _) = _ \/ _ => destruct (i <? 0); set (r := i)
    end.
    + right. reflexivity.
    + destruct (sqrt_range r) as [E|H]; [left; exact E|].
      right. now apply leb_zero_true.
  - unfold guarded_sqrt_arguments. cbv zeta. apply Forall_app.
    split; case_guard; repeat constructor; assumption.
Qed.

(** Collinear chroma vectors in the nominal range, whose hue radicand
    rounds below 0. *)
Lemma distanceTo_never_negative_witness :
  let X := LABColor.new 0.5 0.01 0.01 in
  let Y := LABColor.new 0.5 0.03 0.03 in
  small_components X = true /\ small_components Y = true
  /\ (hue_radicand X Y <? 0) = true
  /\ (0 <=? LABColor.distanceTo X Y) = true.
Proof.
  split; [reflexivity|]. split; [reflexivity|]. split; [reflexivity|].
  apply (proj1 (distanceTo_never_negative (LABColor.new 0.5 0.01 0.01)
                                          (LABColor.new 0.5 0.03 0.03)));
    reflexivity.
Defined.

(** C4 as stated fails: [(0, 1e200, 0)] and [(0, 0, 0)] have finite
    components and their distance is [NaN], which is not [>= 0]. *)
Lemma distanceTo_nonneg_counterexample :
  let X := LABColor.new 0 1e200 0 in
  let Y := LABColor.new 0 0 0 in
  finite_components X = true /\ finite_components Y = true
  /\ (0 <=? LABColor.distanceTo X Y) = false
  /\ LABColor.distanceTo X Y = nan.
Proof. repeat split. Qed.

(** The guard of line 69 at work on the same pair: the radicand of the hue
    term is dropped, the other one is passed on. *)
Lemma negative_hue_radicand_example :
  let X := LABColor.new 0.5 0.01 0.01 in
  let Y := LABColor.new 0.5 0.03 0.03 in
  (hue_radicand X Y <? 0) = true
  /\ guarded_sqrt_arguments X Y = [0.00079898273741097761]
  /\ LABColor.distanceTo X Y = 0.028266282695306393.
Proof. repeat split. Qed.

(** C7. [distanceTo] is not symmetric: the colours [(0, 1, 0)] and
    [(0, 0, 0)] differ in chroma, and their distance is [1] one way and
    [1 / 1.045] the other, the scale factors coming from the first chroma
    only. *)
Theorem distanceTo_not_symmetric :
  exists X Y : LABColor.t,
    (LABColor.distanceToGray X =? LABColor.distanceToGray Y) = false
    /\ (LABColor.distanceTo X Y =? LABColor.distanceTo Y X) = false
    /\ LABColor.distanceTo X Y = 0.95693779904306231
    /\ LABColor.distanceTo Y X = 1.
Proof.
  exists (LABColor.new 0 1 0), (LABColor.new 0 0 0). repeat split.
Qed.

(** C9, as amended. For every two colours that share [a] and [b], with a
    finite chroma, [distanceTo] is the square root of the squared lightness
    difference, both taken in binary64; it is the absolute lightness
    difference whenever that difference is zero or has a magnitude in
    [[2^-511, 2^511)], where its square neither underflows nor overflows. *)
Theorem distanceTo_shared_chroma l1 l2 a b :
  is_finite (LABColor.distanceToGray (LABColor.new l1 a b)) = true ->
  LABColor.distanceTo (LABColor.new l1 a b) (LABColor.new l2 a b)
  = sqrt ((l1 - l2) * (l1 - l2))
  /\ ((l1 - l2 =? 0) = true
      \/ ((0x1p-511 <=? abs (l1 - l2)) = true
          /\ (abs (l1 - l2) <? 0x1p511) = true) ->
      LABColor.distanceTo (LABColor.new l1 a b) (LABColor.new l2 a b)
      = abs (l1 - l2)).
Proof.
  intros Hc. change (is_finite (sqrt (a * a + b * b)) = true) in Hc.
  rewrite (distanceTo_shared_ab l1 l2 a b Hc). split; [reflexivity|].
  intros [Hz|[Hlo Hhi]].
  - destruct (eqb_zero_cases _ Hz) as [-> | ->]; reflexivity.
  - now apply sqrt_square_abs.
Qed.

Lemma distanceTo_shared_chroma_witness :
  is_finite (LABColor.distanceToGray (LABColor.new 0.3 0.5 0.5)) = true
  /\ (0x1p-511 <=? abs (0.3 - 0.1)) = true
  /\ (abs (0.3 - 0.1) <? 0x1p511) = true
  /\ LABColor.distanceTo (LABColor.new 0.3 0.5 0.5) (LABColor.new 0.1 0.5 0.5)
     = abs (0.3 - 0.1).
Proof.
  split; [reflexivity|]. split; [reflexivity|]. split; [reflexivity|].
  apply (proj2 (distanceTo_shared_chroma 0.3 0.1 0.5 0.5 eq_refl)).
  right. split; reflexivity.
Defined.

(** C9 as stated fails: [(1e-200, 0.5, 0.5)] and [(0, 0.5, 0.5)] share [a]
    and [b], their lightness difference is [1e-200], and their distance is
    0 because the square of the difference underflows. *)
Lemma distanceTo_shared_chroma_counterexample :
  let X := LABColor.new 1e-200 0.5 0.5 in
  let Y := LABColor.new 0 0.5 0.5 in
  LABColor.distanceTo X Y = 0
  /\ abs (LABColor.l X - LABColor.l Y) = 1e-200
  /\ (LABColor.distanceTo X Y =? abs (LABColor.l X - LABColor.l Y)) = false.
Proof. repeat split. Qed.

End DistanceTo.

(** ** distanceToGray *)

(** C6. [distanceToGray] is [sqrt (a*a + b*b)]; it depends on the
    components [a] and [b] only, whatever [l] is: two colours with the same
    point of the AB-subspace are at the same distance from gray; and it is
    0 for [a = b = 0] and 1 for [a = 1], [b = 0]. *)
Theorem distanceToGray_is_chroma l a b :
  LABColor.distanceToGray (LABColor.new l a b) = sqrt (a * a + b * b)
  /\ (forall X Y : LABColor.t,
        point_a X = point_a Y -> point_b X = point_b Y ->
        LABColor.distanceToGray X = LABColor.distanceToGray Y)
  /\ LABColor.distanceToGray (LABColor.new l 0 0) = 0
  /\ LABColor.distanceToGray (LABColor.new l 1 0) = 1.
Proof.
  split; [reflexivity|]. split; [|split; reflexivity].
  intros X Y Ha Hb. unfold LABColor.distanceToGray.
  cbn [point_a point_b LABColor_ILabColorPoint] in Ha, Hb.
  now rewrite Ha, Hb.
Qed.

(** ** toXYZ *)

(** C2. For every colour and white point, [toXYZ] is the inverse transform
    of the specification: [fy = (l*100 + 16)/116], [fx = a/5 + fy],
    [fz = fy - b/2], each turned into its cube when the cube strictly
    exceeds 0.008856451 and into [(f - 16/116)/7.787037] otherwise, and
    multiplied by the matching component of the white point. *)
Theorem toXYZ_is_CIELAB_inverse (D65 : XYZColor.t) l a b :
  LABColor.toXYZ D65 (LABColor.new l a b)
  = CIELAB_inverse (XYZColor.x D65) (XYZColor.y D65) (XYZColor.z D65) l a b.
Proof.
  unfold LABColor.toXYZ, CIELAB_inverse.
  cbn [map get nth LABColor.l LABColor.a LABColor.b LABColor.values
       LABColor.new].
  unfold LABColor.toXYZ_component, XYZ_ratio. reflexivity.
Qed.

(** The threshold is strict: a cube equal to it takes the linear branch. *)
Lemma XYZ_ratio_threshold_strict :
  (0.008856451 <? 0.008856451) = false.
Proof. reflexivity. Qed.

(** Adding or subtracting a zero of either sign leaves a non-zero float
    as it is. *)
Lemma add_signed_zero z y :
  z = 0 \/ z = neg_zero ->
  match Prim2SF y with S754_zero _ => False | _ => True end ->
  z + y = y /\ y - z = y.
Proof.
  intros Hz Hy. split; apply Prim2SF_inj; [rewrite add_spec|rewrite sub_spec];
    destruct Hz as [-> | ->];
    destruct (Prim2SF y) as [[]|[]| |[] m e]; try contradiction; reflexivity.
Qed.

Lemma toXYZ_component_signed_zero z y :
  z = 0 \/ z = neg_zero ->
  LABColor.toXYZ_component (z + y) = LABColor.toXYZ_component y
  /\ LABColor.toXYZ_component (y - z) = LABColor.toXYZ_component y.
Proof.
  intros Hz. destruct (Prim2SF y) as [s| | |] eqn:E.
  - apply Prim2SF_zero in E. subst y.
    destruct Hz as [-> | ->]; destruct s; split; reflexivity.
  - destruct (add_signed_zero z y Hz) as [-> ->]; [now rewrite E|now split].
  - destruct (add_signed_zero z y Hz) as [-> ->]; [now rewrite E|now split].
  - destruct (add_signed_zero z y Hz) as [-> ->]; [now rewrite E|now split].
Qed.

(** C10, as amended. For every neutral colour ([a] and [b] equal to 0, of
    either sign) and every white point, the three components of [toXYZ]
    are the products of one and the same ratio [r], that of
    [fy = (l*100 + 16)/116], with the three components of the white
    point. *)
Theorem toXYZ_neutral (D65 : XYZColor.t) l a b :
  (a =? 0) = true -> (b =? 0) = true ->
  let r := LABColor.toXYZ_component ((l * 100 + 16) / 116) in
  LABColor.toXYZ D65 (LABColor.new l a b)
  = XYZColor.new (r * XYZColor.x D65) (r * XYZColor.y D65)
                 (r * XYZColor.z D65).
Proof.
  intros Ha Hb r. unfold LABColor.toXYZ.
  cbn [map get nth LABColor.l LABColor.a LABColor.b LABColor.values LABColor.new].
  assert (Ha5 : a / 5 = 0 \/ a / 5 = neg_zero).
  { destruct (eqb_zero_cases a Ha) as [-> | ->]; [left|right]; reflexivity. }
  assert (Hb2 : b / 2 = 0 \/ b / 2 = neg_zero).
  { destruct (eqb_zero_cases b Hb) as [-> | ->]; [left|right]; reflexivity. }
  destruct (toXYZ_component_signed_zero (a / 5) ((l * 100 + 16) / 116) Ha5)
    as [-> _].
  destruct (toXYZ_component_signed_zero (b / 2) ((l * 100 + 16) / 116) Hb2)
    as [_ ->].
  reflexivity.
Qed.

Lemma toXYZ_neutral_witness :
  let D65 := XYZColor.new 0.95047 1 1.08883 in
  (0 =? 0) = true /\ (neg_zero =? 0) = true
  /\ LABColor.toXYZ D65 (LABColor.new 0.25 0 neg_zero)
     = XYZColor.new 0.041967781882969776 0.044154767518143415
                    0.048077035516780095.
Proof.
  split; [reflexivity|]. split; [reflexivity|].
  rewrite (toXYZ_neutral (XYZColor.new 0.95047 1 1.08883) 0.25 0 neg_zero);
    reflexivity.
Defined.

(** C10 as stated fails: dividing the components back by those of the
    white point does not give equal quotients.  With the D65 white point
    [(0.95047, 1, 1.08883)] and the neutral colour [(0.25, 0, 0)],
    [x / D65.x] and [y / D65.y] differ in the last place; so do they with
    the white point scaled by 100 and the colour [(0.75, 0, 0)]. *)
Lemma toXYZ_neutral_counterexample :
  (let D65 := XYZColor.new 0.95047 1 1.08883 in
   let c := LABColor.toXYZ D65 (LABColor.new 0.25 0 0) in
   (XYZColor.x c / XYZColor.x D65 =? XYZColor.y c / XYZColor.y D65) = false
   /\ XYZColor.x c / XYZColor.x D65 = 0.044154767518143422
   /\ XYZColor.y c / XYZColor.y D65 = 0.044154767518143415)
  /\
  (let D65 := XYZColor.new 95.047 100 108.883 in
   let c := LABColor.toXYZ D65 (LABColor.new 0.75 0 0) in
   (XYZColor.x c / XYZColor.x D65 =? XYZColor.y c / XYZColor.y D65) = false).
Proof. repeat split. Qed.
(** ** Instances in the store *)

Section StoreFacts.
Variable D65 : XYZColor.t.
Variables RGBColor SRGBColor : Type.
Variable XYZColor_toRGB : XYZColor.t -> RGBColor.
Variable RGBColor_toSRGB : RGBColor -> SRGBColor.

Lemma read_alloc vs h r h' :
  Store.alloc vs h = Some (r, h') ->
  Store.read r h' = Some vs
  /\ forall r' vs', Store.read r' h = Some vs' ->
                    r' <> r /\ Store.read r' h' = Some vs'.
Proof.
  unfold Store.alloc, Store.read. intros E. injection E as <- <-. split.
  - now rewrite nth_error_app2, Nat.sub_diag.
  - intros r' vs' H.
    assert (Hlt : (r' < length h)%nat)
      by (apply nth_error_Some; now rewrite H).
    split; [lia|]. now rewrite nth_error_app1.
Qed.

Lemma read_write_other r vs h r' :
  r' <> r -> Store.read r' (Store.write r vs h) = Store.read r' h.
Proof.
  unfold Store.read. revert r r'.
  induction h as [|c h IH]; intros r r' Hne; [reflexivity|].
  destruct r as [|r]; destruct r' as [|r']; simpl; trivial;
    [congruence|]. apply IH. congruence.
Qed.

Lemma instance_read this h vs :
  Store.read (Store.values this) h = Some vs ->
  Store.instance this h = Some (LABColor.Build vs, h).
Proof. unfold Store.instance. now intros ->. Qed.

Lemma invoke_preserves c this h v h' :
  Store.invoke D65 RGBColor SRGBColor XYZColor_toRGB RGBColor_toSRGB
               c this h = Some (v, h') ->
  forall r vs, Store.read r h = Some vs -> Store.read r h' = Some vs.
Proof.
  intros E r vs Hr.
  destruct c; cbv [Store.invoke Store.l Store.a Store.b Store.distanceTo
                   Store.distanceToGray Store.toArray Store.toXYZ
                   Store.toRGB Store.toSRGB Store.bind Store.ret
                   Store.instance] in E;
    repeat match type of E with
           | context [match Store.read ?x ?y with _ => _ end] =>
               destruct (Store.read x y)
           end; try discriminate E;
    try (injection E as _ <-; exact Hr).
  unfold Store.alloc in E. injection E as _ <-.
  unfold Store.read in *. rewrite nth_error_app1; [exact Hr|].
  apply nth_error_Some. now rewrite Hr.
Qed.

Lemma run_preserves h h' :
  Store.run D65 RGBColor SRGBColor XYZColor_toRGB RGBColor_toSRGB h h' ->
  forall r vs, Store.read r h = Some vs -> Store.read r h' = Some vs.
Proof.
  induction 1 as [h|h l a b this h' h'' E _ IH|h c this v h' h'' E _ IH];
    intros r vs Hr; [exact Hr| |].
  - apply IH. unfold Store.new, Store.bind in E.
    destruct (Store.alloc [l; a; b] h) as [[r0 h0]|] eqn:Ea;
      [|discriminate E].
    injection E as _ <-. now apply (read_alloc _ _ _ _ Ea).
  - apply IH. eapply invoke_preserves; eassumption.
Qed.

(** C5. For every instance holding [[l, a, b]], [toArray] returns a new
    array with [l], [a], [b] in that order; whatever is then written into
    that array, the accessors [l], [a], [b] and a later [toArray] answer as
    before. *)
Theorem toArray_fresh_copy l a b (this : Store.LABColor) (h : Store.heap) :
  Store.read (Store.values this) h = Some [l; a; b] ->
  exists r h',
    Store.toArray this h = Some (r, h')
    /\ Store.read r h' = Some [l; a; b]
    /\ r <> Store.values this
    /\ forall vs,
         let h'' := Store.write r vs h' in
         Store.l this h'' = Some (l, h'')
         /\ Store.a this h'' = Some (a, h'')
         /\ Store.b this h'' = Some (b, h'')
         /\ exists r2 h3,
              Store.toArray this h'' = Some (r2, h3)
              /\ Store.read r2 h3 = Some [l; a; b].
Proof.
  intros Hr.
  destruct (Store.alloc [l; a; b] h) as [[r h']|] eqn:E;
    [|discriminate E].
  destruct (read_alloc _ _ _ _ E) as [Hnew Hold].
  destruct (Hold _ _ Hr) as [Hne Hr'].
  exists r, h'. split; [|split; [exact Hnew|split; [congruence|]]].
  - unfold Store.toArray, Store.bind. now rewrite (instance_read _ _ _ Hr).
  - intros vs h''.
    assert (Hr'' : Store.read (Store.values this) h'' = Some [l; a; b]).
    { unfold h''. now rewrite read_write_other. }
    unfold Store.l, Store.a, Store.b, Store.toArray, Store.bind, Store.ret.
    rewrite (instance_read _ _ _ Hr''). repeat (split; [reflexivity|]).
    destruct (Store.alloc [l; a; b] h'') as [[r2 h3]|] eqn:E2;
      [|discriminate E2].
    exists r2, h3. split; [exact E2|].
    now destruct (read_alloc _ _ _ _ E2).
Qed.

Lemma toArray_fresh_copy_witness :
  let this := {| Store.values := 0%nat |} in
  let h := [[0.5; 0.25; 0.75]] in
  Store.read (Store.values this) h = Some [0.5; 0.25; 0.75]
  /\ exists r h',
       Store.toArray this h = Some (r, h')
       /\ Store.read r h' = Some [0.5; 0.25; 0.75]
       /\ r <> Store.values this
       /\ forall vs,
            let h'' := Store.write r vs h' in
            Store.l this h'' = Some (0.5, h'')
            /\ Store.a this h'' = Some (0.25, h'')
            /\ Store.b this h'' = Some (0.75, h'')
            /\ exists r2 h3,
                 Store.toArray this h'' = Some (r2, h3)
                 /\ Store.read r2 h3 = Some [0.5; 0.25; 0.75].
Proof.
  split; [reflexivity|].
  apply (toArray_fresh_copy 0.5 0.25 0.75 {| Store.values := 0%nat |}
           [[0.5; 0.25; 0.75]]).
  reflexivity.
Defined.

(** C8. The constructor stores the three components as given, whatever
    their values; the accessors return them; and after any run of the
    operations of the type ([distanceTo], [distanceToGray], [toArray],
    [toXYZ], [toRGB], [toSRGB] and the accessors, on any instances) the
    stored triple is unchanged. *)
Theorem stored_triple_invariant l a b (h0 : Store.heap) :
  exists this h,
    Store.new l a b h0 = Some (this, h)
    /\ Store.read (Store.values this) h = Some [l; a; b]
    /\ forall h',
         Store.run D65 RGBColor SRGBColor XYZColor_toRGB RGBColor_toSRGB
                   h h' ->
         Store.read (Store.values this) h' = Some [l; a; b]
         /\ Store.l this h' = Some (l, h')
         /\ Store.a this h' = Some (a, h')
         /\ Store.b this h' = Some (b, h').
Proof.
  destruct (Store.alloc [l; a; b] h0) as [[r h]|] eqn:E; [|discriminate E].
  exists {| Store.values := r |}, h.
  destruct (read_alloc _ _ _ _ E) as [Hnew _].
  split; [|split; [exact Hnew|]].
  - unfold Store.new, Store.bind. now rewrite E.
  - intros h' Hrun.
    assert (Hr : Store.read r h' = Some [l; a; b])
      by (eapply run_preserves; eassumption).
    split; [exact Hr|].
    unfold Store.l, Store.a, Store.b, Store.bind, Store.ret.
    rewrite (instance_read {| Store.values := r |} _ _ Hr).
    repeat split.
Qed.
End StoreFacts.

(** * Further properties of the code *)

(** ** Signs and magnitudes of the binary64 operations *)

Module Sign.
Import IEEE.
Local Open Scope Z_scope.

Lemma same_magnitude_opp u : same_magnitude (SFopp u) u.
Proof. now right. Qed.

Lemma SFopp_involutive u : SFopp (SFopp u) = u.
Proof. destruct u as [[]|[]| |[] m e]; reflexivity. Qed.

Lemma same_magnitude_sym u v : same_magnitude u v -> same_magnitude v u.
Proof.
  intros [->| ->]; [now left|right]. symmetry. apply SFopp_involutive.
Qed.

(** The sign given to the rounding is the sign of its result. *)
Lemma binary_round_aux_opp s M e l :
  binary_round_aux prec emax (negb s) M e l
  = SFopp (binary_round_aux prec emax s M e l).
Proof.
  unfold binary_round_aux.
  destruct (shr_fexp prec emax M e l) as [r1 e1].
  destruct (shr_fexp prec emax _ e1 loc_Exact) as [r2 e2].
  destruct (shr_m r2); trivial. now destruct (e2 <=? emax - prec).
Qed.

Lemma binary_round_opp s m e :
  binary_round prec emax (negb s) m e = SFopp (binary_round prec emax s m e).
Proof.
  unfold binary_round. destruct (shl_align m e _) as [mz ez].
  apply binary_round_aux_opp.
Qed.

Lemma binary_normalize_opp M e :
  binary_normalize prec emax (- M) e false
  = match M with
    | 0 => S754_zero false
    | _ => SFopp (binary_normalize prec emax M e false)
    end.
Proof.
  destruct M as [|p|p]; trivial; cbn [Z.opp binary_normalize].
  - apply (binary_round_opp false).
  - rewrite <- (binary_round_opp true). reflexivity.
Qed.

(** Exchanging the operands of a subtraction changes the sign of the
    difference at most. *)
Lemma SFsub_swap x y : same_magnitude (SF64sub x y) (SF64sub y x).
Proof.
  destruct x as [[]|[]| |sx mx ex]; destruct y as [[]|[]| |sy my ey];
    try (left; reflexivity); try (right; reflexivity);
    try (right; simpl; now destruct sx); try (right; simpl; now destruct sy).
  unfold SF64sub, SFsub. rewrite (Z.min_comm ey ex).
  set (A := cond_Zopp sx _). set (B := cond_Zopp sy _).
  change (IntDef.Z.sub B A) with (B - A).
  change (IntDef.Z.sub A B) with (A - B).
  replace (B - A) with (- (A - B)) by lia.
  rewrite binary_normalize_opp. destruct (A - B); [now left|apply same_magnitude_sym, same_magnitude_opp..].
Qed.

(** The square does not see the sign. *)
Lemma SFmul_same_magnitude u v :
  same_magnitude u v -> SF64mul u u = SF64mul v v.
Proof.
  intros [->| ->]; [reflexivity|].
  destruct v as [[]|[]| |[] m e]; reflexivity.
Qed.

Lemma SFadd_comm x y : SF64add x y = SF64add y x.
Proof.
  destruct x as [[]|[]| |sx mx ex]; destruct y as [[]|[]| |sy my ey];
    try reflexivity.
  unfold SF64add, SFadd. rewrite (Z.min_comm ey ex).
  set (A := cond_Zopp sx _). set (B := cond_Zopp sy _).
  change (IntDef.Z.add B A) with (B + A).
  change (IntDef.Z.add A B) with (A + B).
  now rewrite Z.add_comm.
Qed.

(** Negating both operands of a subtraction changes the sign of the
    difference at most. *)
Lemma SFsub_opp x y :
  same_magnitude (SF64sub (SFopp x) (SFopp y)) (SF64sub x y).
Proof.
  destruct x as [[]|[]| |sx mx ex]; destruct y as [[]|[]| |sy my ey];
    try (left; reflexivity); try (right; reflexivity);
    try (right; simpl; now destruct sx); try (right; simpl; now destruct sy).
  unfold SF64sub, SFsub. cbn [SFopp].
  set (ez := Z.min ex ey).
  set (A := Zpos (fst (shl_align mx ex ez))).
  set (B := Zpos (fst (shl_align my ey ez))).
  clearbody A B.
  change (IntDef.Z.sub (cond_Zopp (negb sx) A) (cond_Zopp (negb sy) B))
    with (cond_Zopp (negb sx) A - cond_Zopp (negb sy) B).
  change (IntDef.Z.sub (cond_Zopp sx A) (cond_Zopp sy B))
    with (cond_Zopp sx A - cond_Zopp sy B).
  replace (cond_Zopp (negb sx) A - cond_Zopp (negb sy) B)
    with (- (cond_Zopp sx A - cond_Zopp sy B))
    by (destruct sx, sy; cbn [cond_Zopp negb]; lia).
  rewrite binary_normalize_opp.
  destruct (cond_Zopp sx A - cond_Zopp sy B);
    [now left|apply same_magnitude_opp..].
Qed.

(** A sum of data that are not negative is not negative; [NaN] has no
    sign. *)
Lemma SFadd_signed x y :
  signed_as false x -> signed_as false y -> signed_as false (SF64add x y).
Proof.
  destruct x as [[]|[]| |[] mx ex]; simpl; intros Hx; try discriminate Hx;
  destruct y as [[]|[]| |[] my ey]; simpl; intros Hy; try discriminate Hy;
    trivial.
  unfold SF64add, SFadd. cbn [cond_Zopp Z.add binary_normalize].
  apply is_nonneg_signed, rounded_nonneg, binary_round_nonneg.
Qed.

End Sign.

(** ** Lower bounds of magnitude, and quotients *)

Module Lower.
Import IEEE Magnitude.
Local Open Scope Z_scope.

Lemma Zdigits2_mono x y : 0 < x <= y -> Zdigits2 x <= Zdigits2 y.
Proof.
  intros [Hx Hy]. rewrite !Zdigits2_log2 by lia.
  apply Z.add_le_mono_r, Z.log2_le_mono. exact Hy.
Qed.

Lemma Zdigits2_shiftr_eq x n :
  0 < x -> 0 <= n < Zdigits2 x ->
  0 < Z.shiftr x n /\ Zdigits2 (Z.shiftr x n) = Zdigits2 x - n.
Proof.
  intros Hx Hn. rewrite Zdigits2_log2 in Hn by assumption.
  assert (Hs : 0 < Z.shiftr x n).
  { rewrite Z.shiftr_div_pow2 by lia. apply Z.div_str_pos.
    split; [apply Z.pow_pos_nonneg; lia|].
    apply Z.le_trans with (2 ^ Z.log2 x);
      [apply Z.pow_le_mono_r; lia | apply Z.log2_spec; lia]. }
  split; [exact Hs|].
  rewrite !Zdigits2_log2, Z.log2_shiftr by lia. lia.
Qed.

(** Above the underflow threshold the first shift of a rounding keeps
    the magnitude. *)
Lemma shr_fexp_digits M e l :
  0 < M -> -1074 < Zdigits2 M + e ->
  0 < shr_m (fst (shr_fexp prec emax M e l))
  /\ Zdigits2 (shr_m (fst (shr_fexp prec emax M e l)))
     + snd (shr_fexp prec emax M e l) = Zdigits2 M + e.
Proof.
  intros HM Hd. unfold shr_fexp.
  rewrite shr_e, shr_m_shiftr, shr_m_of_loc by (rewrite shr_m_of_loc; lia).
  rewrite fexp_eq.
  change (IntDef.Z.add (Zdigits2 M) e) with (Zdigits2 M + e).
  change (IntDef.Z.sub (Z.max (Zdigits2 M + e - 53) (-1074)) e)
    with (Z.max (Zdigits2 M + e - 53) (-1074) - e).
  remember (Z.max (Zdigits2 M + e - 53) (-1074) - e) as n eqn:Hn.
  assert (H0 : 0 < Zdigits2 M) by (rewrite Zdigits2_log2 by lia;
                                   pose proof (Z.log2_nonneg M); lia).
  destruct (Zdigits2_shiftr_eq M (Z.max 0 n) HM ltac:(lia)) as [Hp He].
  split; [exact Hp|]. lia.
Qed.

(** Rounding a positive number does not lower its binade. *)
Lemma binary_round_aux_lower M ex l j :
  0 < M -> j <= Zdigits2 M + ex -> -1074 < j ->
  at_least j (binary_round_aux prec emax false M ex l).
Proof.
  intros HM Hj Hu. unfold binary_round_aux.
  destruct (shr_fexp_digits M ex l HM ltac:(lia)) as [Hp1 Hd1].
  destruct (shr_fexp prec emax M ex l) as [r1 e1]. cbn [fst snd] in Hp1, Hd1.
  pose proof (round_nearest_even_bounds (shr_m r1) (loc_of_shr_record r1)) as HP.
  set (P := round_nearest_even _ _) in *.
  pose proof (Zdigits2_mono (shr_m r1) P ltac:(lia)) as Hm.
  destruct (shr_fexp_digits P e1 loc_Exact ltac:(lia) ltac:(lia)) as [Hp2 Hd2].
  destruct (shr_fexp prec emax P e1 loc_Exact) as [r2 e2].
  cbn [fst snd] in Hp2, Hd2.
  destruct (shr_m r2) as [|p|p]; try lia.
  destruct (e2 <=? emax - prec); [|exact I].
  cbn [at_least]. simpl Zdigits2 in Hd2. lia.
Qed.

Lemma binary_round_lower m e j :
  j <= Zpos (digits2_pos m) + e -> -1074 < j ->
  at_least j (binary_round prec emax false m e).
Proof.
  intros Hj Hu. unfold binary_round.
  destruct (shl_align_digits m e (fexp prec emax (Zpos (digits2_pos m) + e)))
    as (Hd & _ & _).
  destruct (shl_align m e _) as [mz ez]. cbn [fst snd] in Hd.
  apply binary_round_aux_lower; [lia| |exact Hu].
  simpl Zdigits2. lia.
Qed.

(** One plus a number that is not negative is at least one. *)
Lemma SFadd_one_lower y :
  is_nonneg y -> at_least 1 (SF64add SFone64 y).
Proof.
  destruct y as [[]|[]| |[] my ey]; cbn [is_nonneg]; try contradiction;
    intros _; [simpl; lia|exact I|].
  unfold SF64add, SFadd, SFone64.
  set (ez := Z.min (-52) ey).
  destruct (shl_align_digits 4503599627370496 (-52) ez) as (Hd1 & _ & He1).
  change (Zpos (digits2_pos 4503599627370496)) with 53 in Hd1.
  rewrite <- He1, Z.min_r in Hd1 by (unfold ez; lia).
  set (pa := fst (shl_align 4503599627370496 (-52) ez)) in *.
  set (pb := fst (shl_align my ey ez)).
  change (at_least 1 (binary_round prec emax false (pa + pb) ez)).
  clearbody pa pb ez.
  apply binary_round_lower; [|lia].
  change (Zpos (digits2_pos (pa + pb))) with (Zdigits2 (Zpos pa + Zpos pb)).
  assert (Hle : 0 < Zpos pa <= Zpos pa + Zpos pb) by lia.
  apply Zdigits2_mono in Hle. simpl Zdigits2 in Hle at 1. lia.
Qed.

(** A quotient by a divisor of magnitude at least 1 stays below the bound
    of the dividend. *)
Lemma SFdiv_core_bounded mx ex my ey k :
  Zpos (digits2_pos mx) + ex <= k -> 1 <= Zpos (digits2_pos my) + ey ->
  -1074 <= k ->
  let '(q, e', _) := SFdiv_core_binary prec emax (Zpos mx) ex (Zpos my) ey in
  0 <= q /\ Zdigits2 q + e' <= k.
Proof.
  intros Hx Hy Hk. unfold SFdiv_core_binary. simpl Zdigits2.
  rewrite fexp_eq.
  set (d1 := Zpos (digits2_pos mx)) in *.
  set (d2 := Zpos (digits2_pos my)) in *.
  change (IntDef.Z.sub (IntDef.Z.add d1 ex) (IntDef.Z.add d2 ey))
    with (d1 + ex - (d2 + ey)).
  change (IntDef.Z.sub ex ey) with (ex - ey).
  remember (Z.min (Z.max (d1 + ex - (d2 + ey) - 53) (-1074)) (ex - ey))
    as e' eqn:He'.
  change (IntDef.Z.sub (ex - ey) e') with (ex - ey - e').
  assert (Hs : 0 <= ex - ey - e') by lia.
  set (m' := match ex - ey - e' with Zpos _ => _ | 0 => _ | Zneg _ => _ end).
  assert (Hm' : m' = Zpos mx * 2 ^ (ex - ey - e')).
  { subst m'. destruct (ex - ey - e') as [|p|p] eqn:Es;
      [rewrite Z.pow_0_r; ring | apply Z.shiftl_mul_pow2; lia | lia]. }
  clearbody m'.
  pose proof (Zdigits2_bounds mx) as [_ Hbx].
  pose proof (Zdigits2_bounds my) as [Hby _].
  fold d1 in Hbx. fold d2 in Hby.
  assert (Hd1 : 0 < d1) by (unfold d1; lia).
  assert (Hd2 : 0 < d2) by (unfold d2; lia).
  assert (Hp : 0 < 2 ^ (ex - ey - e')) by (apply Z.pow_pos_nonneg; lia).
  assert (Hm0 : 0 <= m') by (rewrite Hm'; lia).
  assert (Hmlt : m' < 2 ^ (d1 + (ex - ey - e'))).
  { rewrite Hm', Z.pow_add_r by lia. apply Z.mul_lt_mono_pos_r; assumption. }
  pose proof (Z_div_mod m' (Zpos my) ltac:(lia)) as Hdiv.
  destruct (Z.div_eucl m' (Zpos my)) as [q r]. destruct Hdiv as [Hqr Hr].
  assert (Hq0 : 0 <= q) by nia.
  split; [exact Hq0|].
  set (j := d1 + (ex - ey - e') - d2 + 1) in *.
  destruct (Z_lt_le_dec j 0) as [Hneg|Hpos].
  - (* the quotient is 0 *)
    assert (Hle : 2 ^ (d1 + (ex - ey - e')) <= 2 ^ (d2 - 1))
      by (apply Z.pow_le_mono_r; unfold j in Hneg; lia).
    assert (q = 0) by nia. subst q. simpl Zdigits2. lia.
  - assert (Hq : q < 2 ^ j).
    { destruct (Z_lt_le_dec q (2 ^ j)) as [|Hge]; [assumption|exfalso].
      assert (Hpj : 0 < 2 ^ j) by (apply Z.pow_pos_nonneg; lia).
      assert (Hpd : 0 < 2 ^ (d2 - 1)) by (apply Z.pow_pos_nonneg; lia).
      assert (Hge' : 2 ^ j * 2 ^ (d2 - 1) <= q * Zpos my)
        by (apply Z.mul_le_mono_nonneg; lia).
      rewrite <- Z.pow_add_r in Hge' by lia.
      replace (j + (d2 - 1)) with (d1 + (ex - ey - e')) in Hge'
        by (unfold j; lia).
      lia. }
    assert (Zdigits2 q <= j) by (apply Zdigits2_le; lia).
    unfold j in *. lia.
Qed.

Lemma SFdiv_bounded k x y :
  bounded_by k x -> at_least 1 y -> -1074 <= k <= 971 ->
  bounded_by (k + 1) (SF64div x y).
Proof.
  destruct x as [sx|sx| |sx mx ex]; try contradiction;
  destruct y as [[]|[]| |[] my ey]; try contradiction;
    cbn [bounded_by at_least]; intros Hx Hy Hk; try exact I.
  unfold SF64div, SFdiv.
  pose proof (SFdiv_core_bounded mx ex my ey k Hx Hy ltac:(lia)) as H.
  destruct (SFdiv_core_binary prec emax (Zpos mx) ex (Zpos my) ey)
    as [[q e'] l].
  destruct H as [Hq Hd]. now apply binary_round_aux_bounded.
Qed.

(** A valid datum of magnitude at least [2^0] compares above 1. *)
Lemma SFleb_one x :
  valid_binary x = true -> at_least 1 x -> SFleb SFone64 x = true.
Proof.
  destruct x as [[]|[]| |[] m e]; try contradiction; try reflexivity.
  intros Hv Hx. cbn [at_least] in Hx.
  destruct (valid_finite _ _ _ Hv) as [Hc He].
  unfold SFleb, SFone64. cbn [SFcompare].
  destruct (Z.compare_spec (-52) e) as [E|E|E]; try reflexivity; [|lia].
  subst e. rewrite Pos.compare_cont_spec.
  assert (Hd : Zpos (digits2_pos m) = 53) by lia.
  destruct (Square.normal_mantissa m Hd) as [Hm _].
  destruct (Pos.compare_spec 4503599627370496 m) as [E'|E'|E'];
    try reflexivity.
  apply Pos2Z.pos_lt_pos in E'.
  change (2 ^ 52) with 4503599627370496 in Hm. lia.
Qed.

Lemma at_least_pos k x : at_least k x -> is_pos x.
Proof. destruct x as [[]|[]| |[] m e]; simpl; trivial. Qed.

(** A magnitude of at least [2^-511], as the comparison tells it. *)
Lemma SFabs_lower x :
  valid_binary x = true ->
  SFleb (S754_finite false 4503599627370496 (-563)) (SFabs x) = true ->
  at_least (-510) (SFabs x).
Proof.
  destruct x as [[]|[]| |s m e]; try discriminate; try (intros; exact I).
  intros Hv. destruct (valid_finite _ _ _ Hv) as [Hc He].
  unfold SFleb. cbn [SFabs SFcompare at_least]. intros H.
  destruct (Z.compare_spec (-563) e) as [E|E|E]; try lia; discriminate H.
Qed.

(** The square of a datum of magnitude at least [2^(k-1)] is at least
    [2^(2k-2)], when that is above the underflow threshold. *)
Lemma SFmul_self_lower x k :
  at_least k (SFabs x) -> -536 <= k -> at_least (2 * k - 1) (SF64mul x x).
Proof.
  destruct x as [[]|[]| |s m e]; try contradiction; try (intros; exact I).
  cbn [SFabs at_least]. intros Hk Hu. unfold SF64mul, SFmul.
  rewrite xorb_nilpotent.
  change (Zpos (m * m)) with (Zpos m * Zpos m).
  change (IntDef.Z.add e e) with (e + e).
  pose proof (Zdigits2_bounds m) as [Hlo _].
  set (d := Zpos (digits2_pos m)) in *.
  assert (Hd : 0 < d) by (unfold d; lia).
  assert (Hp : 0 < 2 ^ (d - 1)) by (apply Z.pow_pos_nonneg; lia).
  assert (Hsq : 2 ^ (d - 1 + (d - 1)) <= Zpos m * Zpos m).
  { rewrite Z.pow_add_r by lia. apply Z.mul_le_mono_nonneg; lia. }
  assert (Hdd : d - 1 + (d - 1) + 1 <= Zdigits2 (Zpos m * Zpos m)).
  { rewrite Zdigits2_log2 by lia. apply Z.add_le_mono_r.
    apply Z.log2_le_pow2; lia. }
  apply binary_round_aux_lower; lia.
Qed.

Lemma SFadd_pos x y :
  valid_binary x = true -> valid_binary y = true ->
  is_pos x -> is_nonneg y -> is_pos (SF64add x y).
Proof.
  intros Hx Hy Px Py.
  destruct x as [[]|[]| |[] mx ex]; try contradiction.
  - destruct y as [[]|[]| |[] my ey]; try contradiction; exact I.
  - now apply SFadd_finite_pos.
Qed.

Lemma SFsqrt_pos x :
  valid_binary x = true -> is_pos x -> is_pos (SF64sqrt x).
Proof.
  destruct x as [[]|[]| |[] m e]; try contradiction; try (intros; exact I).
  intros Hv _. destruct (valid_finite _ _ _ Hv) as [Hc He].
  unfold SF64sqrt, SFsqrt, SFsqrt_core_binary.
  simpl Zdigits2. rewrite fexp_eq, !Z.div2_div.
  set (d := Zpos (digits2_pos m)) in *.
  remember (Z.min (Z.max ((d + e + 1) / 2 - 53) (-1074)) (e / 2)) as e' eqn:He'.
  change (IntDef.Z.sub e (IntDef.Z.mul 2 e')) with (e - 2 * e').
  pose proof (Z.div_mod e 2 ltac:(lia)) as He2.
  pose proof (Z.mod_pos_bound e 2 ltac:(lia)) as He2'.
  assert (Hs0 : 0 <= e - 2 * e') by lia.
  assert (Hlow : -1074 <= e') by lia.
  set (m' := match e - 2 * e' with Zpos _ => _ | 0 => _ | Zneg _ => _ end).
  assert (Hm' : m' = Zpos m * 2 ^ (e - 2 * e')).
  { subst m'. destruct (e - 2 * e') as [|p|p] eqn:Es;
      [rewrite Z.pow_0_r; ring | apply Z.shiftl_mul_pow2; lia | lia]. }
  clearbody m'.
  assert (Hp : 0 < 2 ^ (e - 2 * e')) by (apply Z.pow_pos_nonneg; lia).
  assert (Hm1 : 1 <= m') by (rewrite Hm'; nia).
  pose proof (Z.sqrtrem_spec m' ltac:(lia)) as Hsq.
  destruct (Z.sqrtrem m') as [q r]. destruct Hsq as [Hqr Hr].
  assert (Hq : 0 < q) by nia.
  set (l := if r =? 0 then loc_Exact else _). clearbody l.
  pose proof (binary_round_aux_pos false q e' l Hq Hlow) as H.
  destruct (binary_round_aux prec emax false q e' l) as [|[]| |[] ? ?];
    try contradiction; try discriminate; exact I.
Qed.

Lemma SFltb_pos x : is_pos x -> SFltb (S754_zero false) x = true.
Proof. destruct x as [[]|[]| |[] m e]; simpl; trivial; contradiction. Qed.

End Lower.

(** ** The same facts on primitive floats *)

Section FloatMore.
Import IEEE Magnitude Sign Lower.

Lemma is_nan_false x : is_nan x = false -> Prim2SF x <> S754_nan.
Proof.
  intros H E. apply Prim2SF_nan in E. subst x. discriminate H.
Qed.

Lemma signed_add x y :
  signed_as false (Prim2SF x) -> signed_as false (Prim2SF y) ->
  signed_as false (Prim2SF (x + y)).
Proof. rewrite add_spec. apply SFadd_signed. Qed.

Lemma add_comm x y : x + y = y + x.
Proof. apply Prim2SF_inj. rewrite !add_spec. apply SFadd_comm. Qed.

Lemma square_sub_swap x y : (y - x) * (y - x) = (x - y) * (x - y).
Proof.
  apply Prim2SF_inj. rewrite !mul_spec, !sub_spec.
  apply SFmul_same_magnitude, SFsub_swap.
Qed.

Lemma square_opp x : (- x) * (- x) = x * x.
Proof.
  apply Prim2SF_inj. rewrite !mul_spec, opp_spec.
  apply SFmul_same_magnitude, same_magnitude_opp.
Qed.

Lemma square_sub_opp x y : (- x - - y) * (- x - - y) = (x - y) * (x - y).
Proof.
  apply Prim2SF_inj. rewrite !mul_spec, !sub_spec, !opp_spec.
  apply SFmul_same_magnitude, SFsub_opp.
Qed.

(** The chroma of two components that are numbers is not negative. *)
Lemma nonneg_chroma a b :
  is_nan a = false -> is_nan b = false -> nonneg (sqrt (a * a + b * b)).
Proof.
  intros Ha Hb. apply nonneg_sqrt, nonneg_add; unfold nonneg;
    rewrite mul_spec; apply SFmul_self_nonneg; now apply is_nan_false.
Qed.

(** [1 + k * c] for a positive constant [k] and a chroma [c]. *)
Lemma lbnd_scale k mk ek c :
  Prim2SF k = S754_finite false mk ek -> nonneg c -> lbnd 1 (1 + k * c).
Proof.
  intros Hk Hc. unfold lbnd. rewrite add_spec, mul_spec, Hk.
  change (Prim2SF 1) with SFone64.
  now apply SFadd_one_lower, SFmul_finite_nonneg.
Qed.

Lemma lbnd_leb x : lbnd 1 x -> (1 <=? x) = true.
Proof.
  intros H. rewrite leb_spec. change (Prim2SF 1) with SFone64.
  apply SFleb_one; [apply Prim2SF_valid|exact H].
Qed.

Lemma bnd_div k x y :
  bnd k x -> lbnd 1 y -> (-1074 <= k <= 971)%Z -> bnd (k + 1) (x / y).
Proof. unfold bnd, lbnd. rewrite div_spec. apply SFdiv_bounded. Qed.

Lemma signed_not_nan x :
  signed_as false (Prim2SF x) -> is_nan x = false -> nonneg x.
Proof.
  intros Hs Hn. apply is_nan_false in Hn. unfold nonneg.
  destruct (Prim2SF x) as [[]|[]| |[] m e]; simpl in *; trivial;
    try discriminate. now elim Hn.
Qed.

(** The square of a number of magnitude at least [2^-511] does not
    underflow to 0. *)
Lemma square_pos x :
  (0x1p-511 <=? abs x) = true -> positive_or_inf (x * x).
Proof.
  rewrite leb_spec, abs_spec. unfold positive_or_inf. rewrite mul_spec.
  change (Prim2SF 0x1p-511)
    with (S754_finite false 4503599627370496 (-563)).
  intros H. apply (at_least_pos (2 * -510 - 1)).
  apply SFmul_self_lower; [|lia].
  apply SFabs_lower; [apply Prim2SF_valid|exact H].
Qed.

Lemma pos_add x y :
  positive_or_inf x -> nonneg y -> positive_or_inf (x + y).
Proof.
  unfold positive_or_inf, nonneg. rewrite add_spec.
  apply SFadd_pos; apply Prim2SF_valid.
Qed.

Lemma pos_sqrt x : positive_or_inf x -> positive_or_inf (sqrt x).
Proof.
  unfold positive_or_inf. rewrite sqrt_spec.
  apply SFsqrt_pos, Prim2SF_valid.
Qed.

Lemma pos_ltb x : positive_or_inf x -> (0 <? x) = true.
Proof.
  unfold positive_or_inf. rewrite ltb_spec.
  change (Prim2SF 0) with (S754_zero false). apply SFltb_pos.
Qed.

End FloatMore.

(** ** NaN in, NaN out *)

Section NaN.

Lemma add_nan_l x : nan + x = nan.
Proof. apply Prim2SF_inj. rewrite add_spec. reflexivity. Qed.

Lemma add_nan_r x : x + nan = nan.
Proof.
  apply Prim2SF_inj. rewrite add_spec.
  change (Prim2SF nan) with S754_nan. now destruct (Prim2SF x).
Qed.

Lemma sub_nan_l x : nan - x = nan.
Proof. apply Prim2SF_inj. rewrite sub_spec. reflexivity. Qed.

Lemma sub_nan_r x : x - nan = nan.
Proof.
  apply Prim2SF_inj. rewrite sub_spec.
  change (Prim2SF nan) with S754_nan. now destruct (Prim2SF x).
Qed.

Lemma mul_nan_l x : nan * x = nan.
Proof. apply Prim2SF_inj. rewrite mul_spec. reflexivity. Qed.

Lemma mul_nan_r x : x * nan = nan.
Proof.
  apply Prim2SF_inj. rewrite mul_spec.
  change (Prim2SF nan) with S754_nan. now destruct (Prim2SF x).
Qed.

Lemma div_nan_l x : nan / x = nan.
Proof. apply Prim2SF_inj. rewrite div_spec. reflexivity. Qed.

Lemma div_nan_r x : x / nan = nan.
Proof.
  apply Prim2SF_inj. rewrite div_spec.
  change (Prim2SF nan) with S754_nan. now destruct (Prim2SF x).
Qed.

Lemma sqrt_nan : sqrt nan = nan.
Proof. reflexivity. Qed.

Lemma guard_nan : (if nan <? 0 then 0 else sqrt nan) = nan.
Proof. reflexivity. Qed.

End NaN.

Create Rewrite HintDb nan_absorbing.

#[export] Hint Rewrite add_nan_l add_nan_r sub_nan_l sub_nan_r mul_nan_l
  mul_nan_r div_nan_l div_nan_r sqrt_nan guard_nan : nan_absorbing.

(** ** distanceTo, further *)

Section DistanceToMore.
Import IEEE.

(** X1. The guard of line 76 never fires: for every pair of colours the
    sum [i] of the three squares is not below 0, and [distanceTo] returns
    its square root. *)
Theorem distanceTo_final_guard_idle (this color : LABColor.t) :
  (sum_of_squares this color <? 0) = false
  /\ LABColor.distanceTo this color = sqrt (sum_of_squares this color).
Proof.
  assert (H : (sum_of_squares this color <? 0) = false).
  { apply ltb_zero_false. left. unfold sum_of_squares. cbv zeta.
    repeat apply signed_add; apply mul_self_sign. }
  split; [exact H|].
  change (LABColor.distanceTo this color)
    with (if sum_of_squares this color <? 0 then 0
          else sqrt (sum_of_squares this color)).
  now rewrite H.
Qed.

(** X2. The divisors [sc] and [sh] of lines 70 and 71 are at least 1
    whenever [a] and [b] of the first colour are numbers: the quotients of
    lines 73 and 74 never divide by zero. *)
Theorem scale_factors_at_least_one (this : LABColor.t) :
  is_nan (LABColor.a this) = false -> is_nan (LABColor.b this) = false ->
  (1 <=? fst (scale_factors this)) = true
  /\ (1 <=? snd (scale_factors this)) = true.
Proof.
  intros Ha Hb. pose proof (nonneg_chroma _ _ Ha Hb) as Hc.
  unfold scale_factors. cbv zeta. cbn [fst snd].
  split; apply lbnd_leb; eapply lbnd_scale; try exact Hc; reflexivity.
Qed.

Lemma scale_factors_at_least_one_witness :
  let X := LABColor.new 0.5 (-0.3) 0.4 in
  is_nan (LABColor.a X) = false /\ is_nan (LABColor.b X) = false
  /\ (1 <=? fst (scale_factors X)) = true
  /\ (1 <=? snd (scale_factors X)) = true.
Proof.
  split; [reflexivity|]. split; [reflexivity|].
  apply (scale_factors_at_least_one (LABColor.new 0.5 (-0.3) 0.4));
    reflexivity.
Defined.

(** X3. A [NaN] among the components of either colour makes [distanceTo]
    answer [NaN]: the two guards let it through. *)
Theorem distanceTo_nan (this color : LABColor.t) :
  has_nan this || has_nan color = true ->
  LABColor.distanceTo this color = nan.
Proof.
  unfold has_nan, LABColor.l, LABColor.a, LABColor.b, LABColor.distanceTo.
  intros H. cbv zeta.
  repeat (apply orb_prop in H; destruct H as [H|H]);
    apply is_nan_spec in H; rewrite H;
    autorewrite with nan_absorbing; reflexivity.
Qed.

Lemma distanceTo_nan_witness :
  let X := LABColor.new 0.5 0.3 0.4 in
  let Y := LABColor.new 0.5 nan 0.4 in
  has_nan X || has_nan Y = true /\ LABColor.distanceTo X Y = nan.
Proof.
  split; [reflexivity|].
  apply (distanceTo_nan (LABColor.new 0.5 0.3 0.4) (LABColor.new 0.5 nan 0.4)).
  reflexivity.
Defined.

(** X4. Between two colours of equal chroma [distanceTo] is symmetric: the
    asymmetry of the formula comes from the chroma of the first colour
    only. *)
Theorem distanceTo_symmetric_equal_chroma (X Y : LABColor.t) :
  LABColor.distanceToGray X = LABColor.distanceToGray Y ->
  LABColor.distanceTo X Y = LABColor.distanceTo Y X.
Proof.
  unfold LABColor.distanceToGray, LABColor.a, LABColor.b, LABColor.distanceTo.
  intros H. cbv zeta. rewrite H, !div_one.
  set (c := sqrt _).
  rewrite (square_sub_swap (get (LABColor.values X) 0)),
          (square_sub_swap (get (LABColor.values X) 1)),
          (square_sub_swap (get (LABColor.values X) 2)).
  reflexivity.
Qed.

Lemma distanceTo_symmetric_equal_chroma_witness :
  let X := LABColor.new 0.2 0.3 0.4 in
  let Y := LABColor.new 0.7 (-0.4) 0.3 in
  LABColor.distanceToGray X = LABColor.distanceToGray Y
  /\ LABColor.distanceTo X Y = LABColor.distanceTo Y X.
Proof.
  split; [reflexivity|].
  apply (distanceTo_symmetric_equal_chroma (LABColor.new 0.2 0.3 0.4)
           (LABColor.new 0.7 (-0.4) 0.3)).
  reflexivity.
Defined.

(** X5. [distanceTo] sees the lightnesses through the magnitude of their
    difference only: exchanging the lightnesses of the two colours leaves
    the distance as it is. *)
Theorem distanceTo_lightness_exchange l1 a1 b1 l2 a2 b2 :
  LABColor.distanceTo (LABColor.new l2 a1 b1) (LABColor.new l1 a2 b2)
  = LABColor.distanceTo (LABColor.new l1 a1 b1) (LABColor.new l2 a2 b2).
Proof.
  unfold LABColor.distanceTo.
  cbn [LABColor.values LABColor.new get nth]. cbv zeta.
  now rewrite !div_one, (square_sub_swap l1 l2).
Qed.

(** X6. [distanceTo] is invariant under the reflections of the AB-plane
    applied to both colours: negating [a], negating [b], and exchanging
    [a] with [b]. *)
Theorem distanceTo_plane_isometries l1 a1 b1 l2 a2 b2 :
  let d := LABColor.distanceTo (LABColor.new l1 a1 b1)
                               (LABColor.new l2 a2 b2) in
  LABColor.distanceTo (LABColor.new l1 (- a1) b1) (LABColor.new l2 (- a2) b2)
  = d
  /\ LABColor.distanceTo (LABColor.new l1 a1 (- b1))
                         (LABColor.new l2 a2 (- b2)) = d
  /\ LABColor.distanceTo (LABColor.new l1 b1 a1) (LABColor.new l2 b2 a2) = d.
Proof.
  unfold LABColor.distanceTo.
  cbn [LABColor.values LABColor.new get nth]. cbv zeta.
  repeat split.
  - now rewrite !square_opp, square_sub_opp.
  - now rewrite !square_opp, square_sub_opp.
  - now rewrite (add_comm (b1 * b1)), (add_comm (b2 * b2)),
      (add_comm ((b1 - b2) * (b1 - b2))).
Qed.

(** X7. For components of a magnitude of at most [2^200] no intermediate
    value of [distanceTo] overflows: the distance is a finite number. *)
Theorem distanceTo_small_finite (this color : LABColor.t) :
  small_components this = true -> small_components color = true ->
  is_finite (LABColor.distanceTo this color) = true.
Proof.
  unfold small_components, LABColor.distanceTo, LABColor.l, LABColor.a,
    LABColor.b.
  set (l1 := get (LABColor.values this) 0).
  set (a1 := get (LABColor.values this) 1).
  set (b1 := get (LABColor.values this) 2).
  set (l2 := get (LABColor.values color) 0).
  set (a2 := get (LABColor.values color) 1).
  set (b2 := get (LABColor.values color) 2).
  intros H1 H2.
  apply andb_prop in H1, H2. destruct H1 as [H1 Hb1], H2 as [H2 Hb2].
  apply andb_prop in H1, H2. destruct H1 as [Hl1 Ha1], H2 as [Hl2 Ha2].
  destruct (chroma_small a1 b1 Ha1 Hb1) as [Hc1 Hn1].
  destruct (chroma_small a2 b2 Ha2 Hb2) as [Hc2 Hn2].
  apply small_bnd in Hl1, Ha1, Hb1, Hl2, Ha2, Hb2.
  cbv zeta.
  set (c1 := sqrt (a1 * a1 + b1 * b1)) in *.
  set (c2 := sqrt (a2 * a2 + b2 * b2)) in *.
  rewrite div_one.
  assert (HdL : bnd 203 (l1 - l2)) by (apply (bnd_sub 201); trivial; lia).
  assert (HdA : bnd 203 (a1 - a2)) by (apply (bnd_sub 201); trivial; lia).
  assert (HdB : bnd 203 (b1 - b2)) by (apply (bnd_sub 201); trivial; lia).
  assert (HdC : bnd 206 (c1 - c2)) by (apply (bnd_sub 204); trivial; lia).
  set (dL := l1 - l2) in *. set (dA := a1 - a2) in *.
  set (dB := b1 - b2) in *. set (dC := c1 - c2) in *.
  assert (HR : bnd 415 (dA * dA + dB * dB - dC * dC)).
  { apply (bnd_sub 413); [| |lia].
    - apply (bnd_le 409 413); [|lia]. apply (bnd_add 407); [| |lia];
        apply (bnd_mul 203 203); trivial; lia.
    - apply (bnd_mul 206 206); trivial; lia. }
  set (R := dA * dA + dB * dB - dC * dC) in *.
  assert (HdH : bnd 209 (if R <? 0 then 0 else sqrt R)).
  { destruct (R <? 0) eqn:E; [exact I|].
    apply (bnd_sqrt 415); [exact HR| |lia].
    apply not_negative_class; [|exact E]. eapply bnd_finite, HR. }
  set (dH := if R <? 0 then 0 else sqrt R) in *.
  assert (Hsc : lbnd 1 (1 + 0.045 * c1))
    by (eapply lbnd_scale; [reflexivity|exact Hn1]).
  assert (Hsh : lbnd 1 (1 + 0.015 * c1))
    by (eapply lbnd_scale; [reflexivity|exact Hn1]).
  assert (Hq1 : bnd 207 (dC / (1 + 0.045 * c1)))
    by (apply (bnd_div 206); trivial; lia).
  assert (Hq2 : bnd 210 (dH / (1 + 0.015 * c1)))
    by (apply (bnd_div 209); trivial; lia).
  set (q1 := dC / _) in *. set (q2 := dH / _) in *.
  assert (Hi : bnd 425 (dL * dL + q1 * q1 + q2 * q2)).
  { apply (bnd_add 423); [| |lia].
    - apply (bnd_add 421); [| |lia].
      + apply (bnd_le 407); [|lia]. apply (bnd_mul 203 203); trivial; lia.
      + apply (bnd_le 415); [|lia]. apply (bnd_mul 207 207); trivial; lia.
    - apply (bnd_le 421); [|lia]. apply (bnd_mul 210 210); trivial; lia. }
  destruct (dL * dL + q1 * q1 + q2 * q2 <? 0) eqn:Hg; [reflexivity|].
  apply (bnd_finite ((425 + 1) / 2 + 1)).
  apply bnd_sqrt; [exact Hi| |lia].
  apply not_negative_class; [|exact Hg]. eapply bnd_finite, Hi.
Qed.

Lemma distanceTo_small_finite_witness :
  let X := LABColor.new 0.5 0.01 0.01 in
  let Y := LABColor.new 1e60 (-1e60) 0x1p200 in
  small_components X = true /\ small_components Y = true
  /\ is_finite (LABColor.distanceTo X Y) = true.
Proof.
  split; [reflexivity|]. split; [reflexivity|].
  apply (distanceTo_small_finite (LABColor.new 0.5 0.01 0.01)
           (LABColor.new 1e60 (-1e60) 0x1p200)); reflexivity.
Defined.

(** X8. Two colours whose lightnesses differ by [2^-511] at least are at
    a distance above 0, whenever their distance is a number: the square
    of the lightness difference does not underflow, and the other two
    terms cannot cancel it. *)
Theorem distanceTo_lightness_positive (this color : LABColor.t) :
  is_nan (LABColor.distanceTo this color) = false ->
  (0x1p-511 <=? abs (LABColor.l this - LABColor.l color)) = true ->
  (0 <? LABColor.distanceTo this color) = true.
Proof.
  unfold LABColor.distanceTo, LABColor.l. cbv zeta. rewrite div_one.
  set (dL := get (LABColor.values this) 0 - get (LABColor.values color) 0).
  set (q1 := _ / (1.0 + 0.045 * _)). set (q2 := _ / (1.0 + 0.015 * _)).
  rewrite ltb_zero_false
    by (left; repeat apply signed_add; apply mul_self_sign).
  intros Hn HL.
  assert (H2 : is_nan (q2 * q2) = false).
  { destruct (is_nan (q2 * q2)) eqn:E; [|reflexivity].
    apply is_nan_spec in E. rewrite E in Hn.
    autorewrite with nan_absorbing in Hn. discriminate Hn. }
  assert (H1 : is_nan (q1 * q1) = false).
  { destruct (is_nan (q1 * q1)) eqn:E; [|reflexivity].
    apply is_nan_spec in E. rewrite E in Hn.
    autorewrite with nan_absorbing in Hn. discriminate Hn. }
  apply pos_ltb, pos_sqrt. repeat apply pos_add.
  - now apply square_pos.
  - apply signed_not_nan; [apply mul_self_sign|exact H1].
  - apply signed_not_nan; [apply mul_self_sign|exact H2].
Qed.

Lemma distanceTo_lightness_positive_witness :
  let X := LABColor.new 1e-150 0.5 0.5 in
  let Y := LABColor.new 0 0.5 0.5 in
  is_nan (LABColor.distanceTo X Y) = false
  /\ (0x1p-511 <=? abs (LABColor.l X - LABColor.l Y)) = true
  /\ (0 <? LABColor.distanceTo X Y) = true.
Proof.
  split; [reflexivity|]. split; [reflexivity|].
  apply (distanceTo_lightness_positive (LABColor.new 1e-150 0.5 0.5)
           (LABColor.new 0 0.5 0.5)); reflexivity.
Defined.

End DistanceToMore.

(** ** distanceToGray, further *)

(** X9. [distanceToGray] answers [NaN] exactly when [a] or [b] is [NaN]
    (or missing); otherwise it answers a value [>= 0], which may be
    [+Infinity]. *)
Theorem distanceToGray_range (c : LABColor.t) :
  if is_nan (LABColor.a c) || is_nan (LABColor.b c)
  then LABColor.distanceToGray c = nan
  else (0 <=? LABColor.distanceToGray c) = true.
Proof.
  unfold LABColor.distanceToGray.
  destruct (is_nan (LABColor.a c)) eqn:Ha; cbn [orb].
  - apply is_nan_spec in Ha. rewrite Ha.
    now autorewrite with nan_absorbing.
  - destruct (is_nan (LABColor.b c)) eqn:Hb.
    + apply is_nan_spec in Hb. rewrite Hb.
      now autorewrite with nan_absorbing.
    + apply leb_zero_true. right. now apply nonneg_chroma.
Qed.

(** X10. [distanceToGray] depends on the magnitudes of [a] and [b] only,
    and treats them alike: negating [a], negating [b] and exchanging [a]
    with [b] leave it as it is. *)
Theorem distanceToGray_reflections l l' a b :
  let d := LABColor.distanceToGray (LABColor.new l a b) in
  LABColor.distanceToGray (LABColor.new l' (- a) b) = d
  /\ LABColor.distanceToGray (LABColor.new l' a (- b)) = d
  /\ LABColor.distanceToGray (LABColor.new l' b a) = d.
Proof.
  unfold LABColor.distanceToGray, LABColor.a, LABColor.b.
  cbn [LABColor.values LABColor.new get nth]. cbv zeta.
  repeat split.
  - now rewrite square_opp.
  - now rewrite square_opp.
  - now rewrite add_comm.
Qed.

(** X11. On the axes of the AB-plane [distanceToGray] is exact: with one
    of [a], [b] equal to 0 (of either sign) and the other one of a
    magnitude in [[2^-511, 2^511)], it is the absolute value of the other
    one. *)
Theorem distanceToGray_on_axis l v z :
  (z =? 0) = true ->
  (0x1p-511 <=? abs v) = true -> (abs v <? 0x1p511) = true ->
  LABColor.distanceToGray (LABColor.new l v z) = abs v
  /\ LABColor.distanceToGray (LABColor.new l z v) = abs v.
Proof.
  intros Hz Hlo Hhi.
  unfold LABColor.distanceToGray, LABColor.a, LABColor.b.
  cbn [LABColor.values LABColor.new get nth].
  assert (E : z * z = 0)
    by (destruct (eqb_zero_cases z Hz) as [-> | ->]; reflexivity).
  rewrite E, (add_comm 0), add_zero_r by apply mul_self_sign.
  split; now apply sqrt_square_abs.
Qed.

Lemma distanceToGray_on_axis_witness :
  (neg_zero =? 0) = true
  /\ (0x1p-511 <=? abs (-0.3)) = true /\ (abs (-0.3) <? 0x1p511) = true
  /\ LABColor.distanceToGray (LABColor.new 0.5 (-0.3) neg_zero) = 0.3
  /\ LABColor.distanceToGray (LABColor.new 0.5 neg_zero (-0.3)) = 0.3.
Proof.
  split; [reflexivity|]. split; [reflexivity|]. split; [reflexivity|].
  apply (distanceToGray_on_axis 0.5 (-0.3) neg_zero); reflexivity.
Defined.

(** ** toXYZ, further *)

Section ToXYZMore.

Lemma toXYZ_component_bnd v :
  bnd 214 v -> bnd 644 (LABColor.toXYZ_component v).
Proof.
  intros Hv. unfold LABColor.toXYZ_component. cbv zeta.
  destruct (0.008856451 <? v * v * v).
  - apply (bnd_mul 429 214); [|exact Hv|lia].
    apply (bnd_mul 214 214); trivial; lia.
  - apply (bnd_le 217); [|lia]. apply (bnd_div 216); [| |lia].
    + apply (bnd_sub 214); [exact Hv| |lia]. unfold bnd. cbn. lia.
    + unfold lbnd. cbn. lia.
Qed.

(** X12. For colour components and a white point of a magnitude of at most
    [2^200], no step of [toXYZ] overflows: the three components of the
    result are finite numbers. *)
Theorem toXYZ_small_finite (D65 : XYZColor.t) (this : LABColor.t) :
  small_components this = true -> small_XYZ D65 = true ->
  finite_XYZ (LABColor.toXYZ D65 this) = true.
Proof.
  unfold small_components, small_XYZ, finite_XYZ, LABColor.toXYZ.
  intros H1 H2.
  apply andb_prop in H1, H2. destruct H1 as [H1 Hb], H2 as [H2 Hz].
  apply andb_prop in H1, H2. destruct H1 as [Hl Ha], H2 as [Hx Hy].
  apply small_bnd in Hl, Ha, Hb, Hx, Hy, Hz.
  cbv zeta. cbn [map get nth XYZColor.x XYZColor.y XYZColor.z].
  set (l := LABColor.l this) in *. set (a := LABColor.a this) in *.
  set (b := LABColor.b this) in *.
  assert (Hfy : bnd 212 ((l * 100 + 16) / 116)).
  { apply (bnd_div 211); [| |lia].
    - apply (bnd_add 209); [| |lia].
      + apply (bnd_mul 201 7); [exact Hl| |lia]. unfold bnd. cbn. lia.
      + unfold bnd. cbn. lia.
    - unfold lbnd. cbn. lia. }
  set (fy := (l * 100 + 16) / 116) in *.
  assert (Hfx : bnd 214 (a / 5 + fy)).
  { apply (bnd_add 212); [|exact Hfy|lia].
    apply (bnd_le 202); [|lia]. apply (bnd_div 201); [exact Ha| |lia].
    unfold lbnd. cbn. lia. }
  assert (Hfz : bnd 214 (fy - b / 2)).
  { apply (bnd_sub 212); [exact Hfy| |lia].
    apply (bnd_le 202); [|lia]. apply (bnd_div 201); [exact Hb| |lia].
    unfold lbnd. cbn. lia. }
  apply (bnd_le 212 214) in Hfy; [|lia].
  apply toXYZ_component_bnd in Hfx, Hfy, Hfz.
  repeat (apply andb_true_intro; split);
    apply (bnd_finite (644 + 201 + 1)); apply bnd_mul; trivial; lia.
Qed.

Lemma toXYZ_small_finite_witness :
  let D65 := XYZColor.new 95.047 100 108.883 in
  let X := LABColor.new 0.5 (-1e60) 1e60 in
  small_components X = true /\ small_XYZ D65 = true
  /\ finite_XYZ (LABColor.toXYZ D65 X) = true.
Proof.
  split; [reflexivity|]. split; [reflexivity|].
  apply (toXYZ_small_finite (XYZColor.new 95.047 100 108.883)
           (LABColor.new 0.5 (-1e60) 1e60)); reflexivity.
Defined.

(** X13. [toXYZ] lets [NaN] through: a [NaN] lightness makes the three
    components [NaN], a [NaN] in [a] makes [x] so and a [NaN] in [b] makes
    [z] so, whatever the white point. *)
Theorem toXYZ_nan (D65 : XYZColor.t) (this : LABColor.t) :
  (is_nan (LABColor.l this) = true ->
   LABColor.toXYZ D65 this = XYZColor.new nan nan nan)
  /\ (is_nan (LABColor.a this) = true ->
      XYZColor.x (LABColor.toXYZ D65 this) = nan)
  /\ (is_nan (LABColor.b this) = true ->
      XYZColor.z (LABColor.toXYZ D65 this) = nan).
Proof.
  unfold LABColor.toXYZ. cbv zeta.
  cbn [map get nth XYZColor.x XYZColor.y XYZColor.z].
  repeat split; intros H; apply is_nan_spec in H; rewrite H;
    autorewrite with nan_absorbing;
    change (LABColor.toXYZ_component nan) with nan;
    autorewrite with nan_absorbing; reflexivity.
Qed.

Lemma toXYZ_nan_witness :
  let D65 := XYZColor.new 95.047 100 108.883 in
  is_nan (LABColor.l (LABColor.new nan 0.5 0.5)) = true
  /\ LABColor.toXYZ D65 (LABColor.new nan 0.5 0.5)
     = XYZColor.new nan nan nan.
Proof.
  split; [reflexivity|].
  apply (proj1 (toXYZ_nan (XYZColor.new 95.047 100 108.883)
                          (LABColor.new nan 0.5 0.5))).
  reflexivity.
Defined.

End ToXYZMore.

(** ** toArray, further *)

Section StoreMore.

Lemma read_write_same r vs h c :
  Store.read r h = Some c -> Store.read r (Store.write r vs h) = Some vs.
Proof.
  unfold Store.read. revert r.
  induction h as [|c0 h IH]; intros [|r]; simpl; intros H;
    try discriminate H; trivial. now apply IH.
Qed.

(** X14. Two calls of [toArray] on the same instance return two
    different arrays, both holding [[l, a, b]] and different from the
    array of the instance; whatever is written into one of them, the other
    one keeps its content. *)
Theorem toArray_copies_independent l a b (this : Store.LABColor)
    (h : Store.heap) :
  Store.read (Store.values this) h = Some [l; a; b] ->
  exists r1 h1 r2 h2,
    Store.toArray this h = Some (r1, h1)
    /\ Store.toArray this h1 = Some (r2, h2)
    /\ r1 <> r2 /\ r1 <> Store.values this /\ r2 <> Store.values this
    /\ Store.read r1 h2 = Some [l; a; b]
    /\ Store.read r2 h2 = Some [l; a; b]
    /\ forall vs,
         (Store.read r1 (Store.write r1 vs h2) = Some vs
          /\ Store.read r2 (Store.write r1 vs h2) = Some [l; a; b])
         /\ (Store.read r2 (Store.write r2 vs h2) = Some vs
             /\ Store.read r1 (Store.write r2 vs h2) = Some [l; a; b]).
Proof.
  intros Hr.
  destruct (Store.alloc [l; a; b] h) as [[r1 h1]|] eqn:E1;
    [|discriminate E1].
  destruct (read_alloc _ _ _ _ E1) as [Hn1 Ho1].
  destruct (Ho1 _ _ Hr) as [Hne1 Hr1].
  destruct (Store.alloc [l; a; b] h1) as [[r2 h2]|] eqn:E2;
    [|discriminate E2].
  destruct (read_alloc _ _ _ _ E2) as [Hn2 Ho2].
  destruct (Ho2 _ _ Hr1) as [Hne2 Hr2].
  destruct (Ho2 _ _ Hn1) as [Hne12 Hn1'].
  exists r1, h1, r2, h2.
  split; [unfold Store.toArray, Store.bind;
          now rewrite (instance_read _ _ _ Hr)|].
  split; [unfold Store.toArray, Store.bind;
          now rewrite (instance_read _ _ _ Hr1)|].
  repeat (split; [first [assumption|congruence]|]).
  intros vs. repeat split.
  - eapply read_write_same, Hn1'.
  - rewrite read_write_other; [exact Hn2|congruence].
  - eapply read_write_same, Hn2.
  - rewrite read_write_other; [exact Hn1'|congruence].
Qed.

Lemma toArray_copies_independent_witness :
  let this := {| Store.values := 0%nat |} in
  let h := [[0.5; 0.25; 0.75]] in
  Store.read (Store.values this) h = Some [0.5; 0.25; 0.75]
  /\ exists r1 h1 r2 h2,
       Store.toArray this h = Some (r1, h1)
       /\ Store.toArray this h1 = Some (r2, h2)
       /\ r1 <> r2 /\ r1 <> Store.values this /\ r2 <> Store.values this
       /\ Store.read r1 h2 = Some [0.5; 0.25; 0.75]
       /\ Store.read r2 h2 = Some [0.5; 0.25; 0.75]
       /\ forall vs,
            (Store.read r1 (Store.write r1 vs h2) = Some vs
             /\ Store.read r2 (Store.write r1 vs h2)
                = Some [0.5; 0.25; 0.75])
            /\ (Store.read r2 (Store.write r2 vs h2) = Some vs
                /\ Store.read r1 (Store.write r2 vs h2)
                   = Some [0.5; 0.25; 0.75]).
Proof.
  split; [reflexivity|].
  apply (toArray_copies_independent 0.5 0.25 0.75
           {| Store.values := 0%nat |} [[0.5; 0.25; 0.75]]).
  reflexivity.
Defined.

End StoreMore.

(** * The zero distance *)

(** ** Lower bounds through the operations *)

Module Separation.
Import IEEE Magnitude Sign Lower.
Local Open Scope Z_scope.

Lemma at_least_le k k' x : at_least k x -> k' <= k -> at_least k' x.
Proof. destruct x as [[]|[]| |[] m e]; simpl; trivial. lia. Qed.

Lemma at_least_abs k x : at_least k x -> at_least k (SFabs x).
Proof. destruct x as [[]|[]| |[] m e]; simpl; intuition. Qed.

(** A finite datum is below [2^j] or of magnitude [2^j] at least. *)
Lemma bounded_or_at_least j x :
  is_fin x -> bounded_by j x \/ at_least (j + 1) (SFabs x).
Proof.
  destruct x as [s|s| |s m e]; try contradiction; intros _;
    cbn [bounded_by at_least SFabs]; [now left|lia].
Qed.

Lemma bounded_at_least_absurd k k' x :
  bounded_by k x -> at_least k' x -> k < k' -> False.
Proof. destruct x as [[]|[]| |[] m e]; simpl; trivial; lia. Qed.

(** A magnitude compared with a power of two [2^(e0+52)]. *)
Lemma SFabs_lower_pow2 e0 x :
  valid_binary x = true -> -1074 < e0 ->
  SFleb (S754_finite false 4503599627370496 e0) (SFabs x) = true ->
  at_least (e0 + 53) (SFabs x).
Proof.
  destruct x as [[]|[]| |s m e]; try discriminate; try (intros; exact I).
  intros Hv H0. destruct (valid_finite _ _ _ Hv) as [Hc He].
  unfold SFleb. cbn [SFabs SFcompare at_least]. intros H.
  destruct (Z.compare_spec e0 e) as [E|E|E]; try lia; discriminate H.
Qed.

Lemma SFabs_round s M e l :
  SFabs (binary_round_aux prec emax s M e l)
  = SFabs (binary_round_aux prec emax false M e l).
Proof.
  destruct s; [|reflexivity].
  rewrite (binary_round_aux_opp false).
  now destruct (binary_round_aux prec emax false M e l) as [[]|[]| |[] ? ?].
Qed.

(** The aligned mantissa of a datum of magnitude [2^(k-1)] at least. *)
Lemma aligned_ge m e e0 k :
  k <= Zpos (digits2_pos m) + e -> e0 <= e -> e0 < k ->
  2 ^ (k - 1 - e0) <= Zpos (fst (shl_align m e e0)).
Proof.
  intros Hk He H0. destruct (shl_align_digits m e e0) as (_ & Hv & Hm).
  rewrite Hv, <- Hm, Z.min_r by lia.
  pose proof (Zdigits2_bounds m) as [Hb _].
  apply Z.le_trans with (2 ^ (Zpos (digits2_pos m) - 1) * 2 ^ (e - e0)).
  - rewrite <- Z.pow_add_r by lia. apply Z.pow_le_mono_r; lia.
  - apply Z.mul_le_mono_nonneg_r; [apply Z.pow_nonneg; lia|exact Hb].
Qed.

Lemma digits_ge x t : 0 <= t -> 2 ^ t <= x -> t + 1 <= Zdigits2 x.
Proof.
  intros Ht Hx. assert (0 < 2 ^ t) by (apply Z.pow_pos_nonneg; lia).
  rewrite Zdigits2_log2 by lia. apply Z.add_le_mono_r.
  apply Z.log2_le_pow2; lia.
Qed.

(** Adding a datum that is not negative does not lower the binade. *)
Lemma SFadd_lower k x y :
  at_least k x -> is_nonneg y -> -1074 < k -> at_least k (SF64add x y).
Proof.
  destruct x as [[]|[]| |[] mx ex]; try contradiction;
  destruct y as [[]|[]| |[] my ey]; try contradiction;
    intros Hx _ Hk; try exact I; try exact Hx.
  cbn [at_least] in Hx.
  apply (at_least_le (Zpos (digits2_pos mx) + ex)); [|exact Hx].
  unfold SF64add, SFadd.
  set (ez := Z.min ex ey).
  assert (Hz : ez <= ex) by (unfold ez; lia).
  set (d := Zpos (digits2_pos mx)) in *.
  assert (Hd : 0 < d) by (unfold d; lia).
  pose proof (aligned_ge mx ex ez (d + ex) ltac:(unfold d; lia) Hz
                ltac:(lia)) as HA.
  set (pa := fst (shl_align mx ex ez)) in *.
  set (pb := fst (shl_align my ey ez)).
  change (at_least (d + ex) (binary_round prec emax false (pa + pb) ez)).
  clearbody pa pb ez d.
  apply binary_round_lower; [|lia].
  change (Zpos (digits2_pos (pa + pb))) with (Zdigits2 (Zpos pa + Zpos pb)).
  pose proof (digits_ge (Zpos pa + Zpos pb) (d + ex - 1 - ez)
                ltac:(lia) ltac:(lia)) as H.
  lia.
Qed.

(** Subtracting a datum four times smaller lowers the binade by one at
    most. *)
Lemma SFsub_lower k x y :
  at_least k x -> is_nonneg y -> bounded_by (k - 2) y -> -1074 < k - 1 ->
  at_least (k - 1) (SF64sub x y).
Proof.
  destruct x as [[]|[]| |[] mx ex]; try contradiction;
  destruct y as [[]|[]| |[] my ey]; try contradiction;
    cbn [at_least bounded_by]; intros Hx _ Hy Hk; try exact I.
  { change (k - 1 <= Zpos (digits2_pos mx) + ex). lia. }
  unfold SF64sub, SFsub. cbn [cond_Zopp].
  set (ez := Z.min ex ey).
  assert (Hz : ez <= ex /\ ez <= ey) by (unfold ez; lia).
  pose proof (Pos2Z.is_pos (digits2_pos my)) as Hdy.
  pose proof (aligned_ge mx ex ez k Hx ltac:(lia) ltac:(lia)) as HA.
  pose proof (aligned_lt my ey ez (k - 2) Hy ltac:(lia)) as HB.
  set (A := Zpos (fst (shl_align mx ex ez))) in *.
  set (B := Zpos (fst (shl_align my ey ez))) in *.
  change (IntDef.Z.sub A B) with (A - B).
  assert (HB0 : 0 < B) by (unfold B; lia).
  clearbody A B ez.
  assert (Hp : 2 ^ (k - 1 - ez) = 2 * 2 ^ (k - 2 - ez)).
  { replace (k - 1 - ez) with (1 + (k - 2 - ez)) by lia.
    rewrite Z.pow_add_r by lia. reflexivity. }
  pose proof (digits_ge (A - B) (k - 2 - ez) ltac:(lia) ltac:(lia)) as Hd.
  destruct (A - B) as [|q|q] eqn:E; try lia.
  cbn [binary_normalize]. apply binary_round_lower; [|lia].
  simpl Zdigits2 in Hd. lia.
Qed.

(** The square root halves the binade. *)
Lemma SFsqrt_lower k x :
  valid_binary x = true -> at_least k x -> -1074 < (k + 1) / 2 ->
  at_least ((k + 1) / 2) (SF64sqrt x).
Proof.
  destruct x as [[]|[]| |[] m e]; try contradiction; try (intros; exact I).
  intros Hv Hk Hu. cbn [at_least] in Hk.
  destruct (valid_finite _ _ _ Hv) as [Hc He].
  unfold SF64sqrt, SFsqrt, SFsqrt_core_binary.
  simpl Zdigits2. rewrite fexp_eq, !Z.div2_div.
  set (d := Zpos (digits2_pos m)) in *.
  remember (Z.min (Z.max ((d + e + 1) / 2 - 53) (-1074)) (e / 2)) as e' eqn:He'.
  change (IntDef.Z.sub e (IntDef.Z.mul 2 e')) with (e - 2 * e').
  pose proof (Z.div_mod e 2 ltac:(lia)) as He2.
  pose proof (Z.mod_pos_bound e 2 ltac:(lia)) as He2'.
  assert (Hs0 : 0 <= e - 2 * e') by lia.
  set (m' := match e - 2 * e' with Zpos _ => _ | 0 => _ | Zneg _ => _ end).
  assert (Hm' : m' = Zpos m * 2 ^ (e - 2 * e')).
  { subst m'. destruct (e - 2 * e') as [|p|p] eqn:Es;
      [rewrite Z.pow_0_r; ring | apply Z.shiftl_mul_pow2; lia | lia]. }
  clearbody m'.
  assert (Hd0 : 0 < d) by (unfold d; lia).
  pose proof (Zdigits2_bounds m) as [Hlo _]. fold d in Hlo.
  set (u := d - 1 + (e - 2 * e')).
  assert (Hmu : 2 ^ u <= m').
  { rewrite Hm'. unfold u. rewrite Z.pow_add_r by lia.
    apply Z.mul_le_mono_nonneg_r; [apply Z.pow_nonneg; lia|exact Hlo]. }
  pose proof (Z.div_mod u 2 ltac:(lia)) as Hu2.
  pose proof (Z.mod_pos_bound u 2 ltac:(lia)) as Hu2'.
  set (h := u / 2) in *.
  assert (Hh : 0 <= h) by (unfold u in *; lia).
  assert (Hhh : 2 ^ h * 2 ^ h <= 2 ^ u).
  { rewrite <- Z.pow_add_r by lia. apply Z.pow_le_mono_r; lia. }
  assert (Hph : 0 < 2 ^ h) by (apply Z.pow_pos_nonneg; lia).
  pose proof (Z.sqrtrem_spec m' ltac:(lia)) as Hsq.
  destruct (Z.sqrtrem m') as [q r]. destruct Hsq as [Hqr Hr].
  assert (Hq : 2 ^ h <= q).
  { destruct (Z_lt_le_dec q (2 ^ h)) as [Hlt|]; [exfalso|assumption].
    assert ((q + 1) * (q + 1) <= 2 ^ h * 2 ^ h)
      by (apply Z.mul_le_mono_nonneg; lia).
    lia. }
  set (l := if r =? 0 then loc_Exact else _). clearbody l.
  pose proof (digits_ge q h Hh Hq) as Hdq.
  pose proof (Z.div_mod (k + 1) 2 ltac:(lia)) as Hk2.
  pose proof (Z.mod_pos_bound (k + 1) 2 ltac:(lia)) as Hk2'.
  apply binary_round_aux_lower; [lia| |exact Hu].
  unfold u in *. lia.
Qed.

(** The quotient of the divisions. *)
Lemma SFdiv_core_lower mx ex my ey j :
  j <= Zpos (digits2_pos mx) + ex - (Zpos (digits2_pos my) + ey) ->
  -1074 < j ->
  let '(q, e', _) := SFdiv_core_binary prec emax (Zpos mx) ex (Zpos my) ey in
  0 < q /\ j <= Zdigits2 q + e'.
Proof.
  intros Hj Hu. unfold SFdiv_core_binary. simpl Zdigits2.
  rewrite fexp_eq.
  set (d1 := Zpos (digits2_pos mx)) in *.
  set (d2 := Zpos (digits2_pos my)) in *.
  change (IntDef.Z.sub (IntDef.Z.add d1 ex) (IntDef.Z.add d2 ey))
    with (d1 + ex - (d2 + ey)).
  change (IntDef.Z.sub ex ey) with (ex - ey).
  remember (Z.min (Z.max (d1 + ex - (d2 + ey) - 53) (-1074)) (ex - ey))
    as e' eqn:He'.
  change (IntDef.Z.sub (ex - ey) e') with (ex - ey - e').
  assert (Hs : 0 <= ex - ey - e') by lia.
  set (m' := match ex - ey - e' with Zpos _ => _ | 0 => _ | Zneg _ => _ end).
  assert (Hm' : m' = Zpos mx * 2 ^ (ex - ey - e')).
  { subst m'. destruct (ex - ey - e') as [|p|p] eqn:Es;
      [rewrite Z.pow_0_r; ring | apply Z.shiftl_mul_pow2; lia | lia]. }
  clearbody m'.
  pose proof (Zdigits2_bounds mx) as [Hbx _].
  pose proof (Zdigits2_bounds my) as [_ Hby].
  fold d1 in Hbx. fold d2 in Hby.
  assert (Hd1 : 0 < d1) by (unfold d1; lia).
  assert (Hd2 : 0 < d2) by (unfold d2; lia).
  set (t := d1 - 1 + (ex - ey - e') - d2).
  assert (Ht : 0 <= t) by (unfold t; lia).
  assert (Hml : 2 ^ (d1 - 1 + (ex - ey - e')) <= m').
  { rewrite Hm', Z.pow_add_r by lia.
    apply Z.mul_le_mono_nonneg_r; [apply Z.pow_nonneg; lia|exact Hbx]. }
  assert (Hsplit : 2 ^ (d1 - 1 + (ex - ey - e')) = 2 ^ t * 2 ^ d2).
  { rewrite <- Z.pow_add_r by lia. f_equal. unfold t. lia. }
  assert (Hpt : 0 < 2 ^ t) by (apply Z.pow_pos_nonneg; lia).
  assert (Hle : Zpos my * 2 ^ t <= m').
  { apply Z.le_trans with (2 ^ t * 2 ^ d2); [|lia].
    rewrite (Z.mul_comm (Zpos my)). apply Z.mul_le_mono_nonneg_l; lia. }
  pose proof (Z.div_le_lower_bound m' (Zpos my) (2 ^ t) ltac:(lia) Hle) as Hq.
  unfold Z.div in Hq. destruct (Z.div_eucl m' (Zpos my)) as [q r].
  cbn [fst] in Hq. split; [lia|].
  pose proof (digits_ge q t Ht Hq). unfold t in *. lia.
Qed.

Lemma SFdiv_lower p q x y :
  at_least p (SFabs x) -> is_pos y -> bounded_by q y -> -1074 < p - q ->
  at_least (p - q) (SFabs (SF64div x y)).
Proof.
  destruct x as [sx|sx| |sx mx ex]; try contradiction;
  destruct y as [[]|[]| |[] my ey]; try contradiction;
    cbn [at_least bounded_by SFabs]; intros Hx _ Hy Hk; try exact I.
  unfold SF64div, SFdiv.
  pose proof (SFdiv_core_lower mx ex my ey (p - q) ltac:(lia) Hk) as H.
  destruct (SFdiv_core_binary prec emax (Zpos mx) ex (Zpos my) ey)
    as [[z e'] l].
  destruct H as [Hz Hd]. rewrite SFabs_round.
  now apply at_least_abs, binary_round_aux_lower.
Qed.

(** The square of a datum below [2^j] is below [2^(2j+1)]: a square of
    magnitude [2^(2j+1)] at least has a root of magnitude [2^j] at
    least. *)
Lemma SFmul_self_root j x :
  is_fin x -> at_least (j + j + 2) (SF64mul x x) -> -1074 <= j + j <= 971 ->
  at_least (j + 1) (SFabs x).
Proof.
  intros Hf Hsq Hj. destruct (bounded_or_at_least j x Hf) as [Hb|H]; [|exact H].
  exfalso. pose proof (SFmul_bounded j j x x Hb Hb Hj) as Hm.
  apply (bounded_at_least_absurd _ _ _ Hm Hsq). lia.
Qed.

(** [SFeqb]: the same datum, or two zeros. *)
Lemma SFeqb_cases x y :
  SFeqb x y = true ->
  x = y \/ exists s1 s2, x = S754_zero s1 /\ y = S754_zero s2.
Proof.
  unfold SFeqb.
  destruct x as [sx|[]| |[] mx ex]; destruct y as [sy|[]| |[] my ey];
    simpl; try discriminate; auto; try (right; now exists sx, sy);
    destruct (Z.compare_spec ex ey) as [E|E|E]; try discriminate;
    subst ey; change (PosDef.Pos.compare_cont Eq mx my) with (Pos.compare mx my);
    destruct (Pos.compare_spec mx my) as [E|E|E]; try discriminate;
    subst; auto.
Qed.

End Separation.

(** ** The same facts on primitive floats *)

Section FloatSeparation.
Import IEEE Magnitude Sign Lower Separation.

Lemma eqb_cases x y :
  (x =? y) = true ->
  x = y \/ ((x = 0 \/ x = neg_zero) /\ (y = 0 \/ y = neg_zero)).
Proof.
  rewrite FloatAxioms.eqb_spec. intros H.
  destruct (SFeqb_cases _ _ H) as [E|(s1 & s2 & E1 & E2)].
  - left. now apply Prim2SF_inj.
  - right. apply Prim2SF_zero in E1, E2. destruct s1, s2; auto.
Qed.

(** Numerically equal numbers have the same square, and the square of
    their difference is 0. *)
Lemma eqb_square x y : (x =? y) = true -> y * y = x * x.
Proof.
  intros H. destruct (eqb_cases x y H) as [->|[[-> | ->] [-> | ->]]];
    reflexivity.
Qed.

Lemma eqb_sub_square x y :
  (x =? y) = true -> is_finite x = true -> (x - y) * (x - y) = 0.
Proof.
  intros H Hf. destruct (eqb_cases x y H) as [<-|[[-> | ->] [-> | ->]]];
    try reflexivity.
  now rewrite sub_diag.
Qed.

Lemma eqb_refl_finite x : is_finite x = true -> (x =? x) = true.
Proof.
  rewrite is_finite_spec, FloatAxioms.eqb_spec. unfold SFeqb. intros H.
  rewrite SFcompare_refl; [reflexivity|].
  intros E. now rewrite E in H.
Qed.

Lemma ltb_eqb_zero x : (0 <? x) = true -> (x =? 0) = false.
Proof.
  rewrite ltb_spec, FloatAxioms.eqb_spec.
  change (Prim2SF 0) with (S754_zero false).
  now destruct (Prim2SF x) as [[]|[]| |[] m e].
Qed.

Lemma labs_leb_300 x : (0x1p-300 <=? abs x) = true -> labs (-299) x.
Proof.
  rewrite leb_spec, abs_spec. unfold labs.
  change (Prim2SF 0x1p-300)
    with (S754_finite false 4503599627370496 (-352)).
  intros H. apply (SFabs_lower_pow2 (-352)); [apply Prim2SF_valid|lia|exact H].
Qed.

Lemma lbnd_labs k x : lbnd k x -> labs k x.
Proof. apply at_least_abs. Qed.

Lemma lbnd_positive k x : lbnd k x -> positive_or_inf x.
Proof. apply at_least_pos. Qed.

Lemma labs_square k x : labs k x -> (-536 <= k)%Z -> lbnd (2 * k - 1) (x * x).
Proof. unfold labs, lbnd. rewrite mul_spec. apply SFmul_self_lower. Qed.

Lemma lbnd_add_l k x y :
  lbnd k x -> nonneg y -> (-1074 < k)%Z -> lbnd k (x + y).
Proof. unfold lbnd, nonneg. rewrite add_spec. apply SFadd_lower. Qed.

Lemma lbnd_add_r k x y :
  nonneg x -> lbnd k y -> (-1074 < k)%Z -> lbnd k (x + y).
Proof. intros Hx Hy Hk. rewrite add_comm. now apply lbnd_add_l. Qed.

Lemma lbnd_sub k x y :
  lbnd k x -> nonneg y -> bnd (k - 2) y -> (-1074 < k - 1)%Z ->
  lbnd (k - 1) (x - y).
Proof. unfold lbnd, nonneg, bnd. rewrite sub_spec. apply SFsub_lower. Qed.

Lemma lbnd_sqrt k x :
  lbnd k x -> (-1074 < (k + 1) / 2)%Z -> lbnd ((k + 1) / 2) (sqrt x).
Proof.
  unfold lbnd. rewrite sqrt_spec. apply SFsqrt_lower, Prim2SF_valid.
Qed.

Lemma labs_div p q x y :
  labs p x -> positive_or_inf y -> bnd q y -> (-1074 < p - q)%Z ->
  labs (p - q) (x / y).
Proof.
  unfold labs, positive_or_inf, bnd. rewrite div_spec. apply SFdiv_lower.
Qed.

Lemma square_root_labs j x :
  is_finite x = true -> lbnd (j + j + 2) (x * x) ->
  (-1074 <= j + j <= 971)%Z -> labs (j + 1) x.
Proof.
  unfold lbnd, labs. rewrite is_finite_spec, mul_spec.
  apply SFmul_self_root.
Qed.

Lemma bnd_or_lbnd j x :
  is_finite x = true -> nonneg x -> bnd j x \/ lbnd (j + 1) x.
Proof.
  unfold nonneg, bnd, lbnd. rewrite is_finite_spec. intros Hf Hn.
  destruct (bounded_or_at_least j _ Hf) as [H|H]; [now left|right].
  destruct (Prim2SF x) as [[]|[]| |[] m e]; try contradiction; exact H.
Qed.

Lemma pos_add_r x y :
  nonneg x -> positive_or_inf y -> positive_or_inf (x + y).
Proof. intros Hx Hy. rewrite add_comm. now apply pos_add. Qed.

End FloatSeparation.

(** ** distanceTo and the components *)

Section ZeroDistance.
Import IEEE.

(** Numerically identical colours: every term vanishes. *)
Lemma distanceTo_same_zero (X Y : LABColor.t) :
  same_components X Y = true ->
  is_finite (LABColor.l X) = true ->
  is_finite (LABColor.distanceToGray X) = true ->
  LABColor.distanceTo X Y = 0.
Proof.
  unfold same_components, LABColor.distanceToGray, LABColor.distanceTo,
    LABColor.l, LABColor.a, LABColor.b.
  set (l1 := get (LABColor.values X) 0).
  set (a1 := get (LABColor.values X) 1).
  set (b1 := get (LABColor.values X) 2).
  set (l2 := get (LABColor.values Y) 0).
  set (a2 := get (LABColor.values Y) 1).
  set (b2 := get (LABColor.values Y) 2).
  intros H Hl Hc.
  apply andb_prop in H. destruct H as [H Hb].
  apply andb_prop in H. destruct H as [Hl' Ha].
  destruct (chroma_finite_components a1 b1 Hc) as [Hfa Hfb].
  pose proof (chroma_class a1 b1 Hc) as Hcl.
  cbv zeta.
  rewrite (eqb_square a1 a2 Ha), (eqb_square b1 b2 Hb).
  set (c := sqrt (a1 * a1 + b1 * b1)) in *.
  rewrite div_one, (eqb_sub_square l1 l2), (eqb_sub_square a1 a2),
    (eqb_sub_square b1 b2), (sub_diag c) by assumption.
  replace (0 + 0 - 0 * 0) with 0 by reflexivity.
  replace (0 <? 0) with false by reflexivity.
  rewrite sqrt_zero.
  rewrite !div_zero_positive
    by (eapply scale_positive; [reflexivity | assumption | assumption]).
  reflexivity.
Qed.

(** The chroma term and the hue term are not negative; with [a] or [b]
    apart, one of the two is above 0. *)
Lemma chroma_hue_terms a1 b1 a2 b2 :
  small a1 = true -> small b1 = true -> small a2 = true -> small b2 = true ->
  let c1 := sqrt (a1 * a1 + b1 * b1) in
  let c2 := sqrt (a2 * a2 + b2 * b2) in
  let dC := c1 - c2 in
  let R := (a1 - a2) * (a1 - a2) + (b1 - b2) * (b1 - b2) - dC * dC in
  let dH := if R <? 0 then 0 else sqrt R in
  let tC := dC / (1.0 + 0.045 * c1) in
  let tH := dH / (1.0 + 0.015 * c1) in
  nonneg (tC * tC) /\ nonneg (tH * tH)
  /\ (labs (-299) (a1 - a2) \/ labs (-299) (b1 - b2) ->
      positive_or_inf (tC * tC) \/ positive_or_inf (tH * tH)).
Proof.
  intros Ha1 Hb1 Ha2 Hb2.
  destruct (chroma_small a1 b1 Ha1 Hb1) as [Hc1 Hn1].
  destruct (chroma_small a2 b2 Ha2 Hb2) as [Hc2 Hn2].
  apply small_bnd in Ha1, Hb1, Ha2, Hb2.
  intros c1 c2. fold c1 in Hc1, Hn1. fold c2 in Hc2, Hn2.
  assert (HdA : bnd 203 (a1 - a2)) by (apply (bnd_sub 201); trivial; lia).
  assert (HdB : bnd 203 (b1 - b2)) by (apply (bnd_sub 201); trivial; lia).
  assert (HdC : bnd 206 (c1 - c2)) by (apply (bnd_sub 204); trivial; lia).
  set (dA := a1 - a2) in *. set (dB := b1 - b2) in *.
  intros dC. fold dC in HdC.
  assert (HsA : bnd 407 (dA * dA)) by (apply (bnd_mul 203 203); trivial; lia).
  assert (HsB : bnd 407 (dB * dB)) by (apply (bnd_mul 203 203); trivial; lia).
  assert (HnA : nonneg (dA * dA)) by (eapply nonneg_square, HdA).
  assert (HnB : nonneg (dB * dB)) by (eapply nonneg_square, HdB).
  assert (HS : bnd 409 (dA * dA + dB * dB)) by (apply (bnd_add 407); trivial; lia).
  assert (HQ : bnd 413 (dC * dC)) by (apply (bnd_mul 206 206); trivial; lia).
  assert (HnQ : nonneg (dC * dC)) by (eapply nonneg_square, HdC).
  assert (HlS : labs (-299) dA \/ labs (-299) dB ->
                lbnd (-599) (dA * dA + dB * dB)).
  { intros [H|H].
    - apply lbnd_add_l; [|exact HnB|lia].
      apply (labs_square (-299)); [exact H|lia].
    - apply lbnd_add_r; [exact HnA| |lia].
      apply (labs_square (-299)); [exact H|lia]. }
  set (S := dA * dA + dB * dB) in *. set (Q := dC * dC) in *.
  assert (HR : bnd 415 (S - Q))
    by (apply (bnd_sub 413); [apply (bnd_le 409)| |]; trivial; lia).
  intros R. fold R in HR.
  assert (HdH : bnd 209 (if R <? 0 then 0 else sqrt R)).
  { destruct (R <? 0) eqn:E; [exact I|].
    apply (bnd_sqrt 415); [exact HR| |lia].
    apply not_negative_class; [|exact E]. eapply bnd_finite, HR. }
  intros dH. fold dH in HdH.
  assert (Hscale : forall k, bnd (-4) k ->
            (exists mk ek, Prim2SF k = S754_finite false mk ek) ->
            bnd 203 (1 + k * c1) /\ lbnd 1 (1 + k * c1)).
  { intros k Hk (mk & ek & Ek). split.
    - apply (bnd_add 201); [unfold bnd; cbn; lia| |lia].
      apply (bnd_mul (-4) 204); trivial; lia.
    - eapply lbnd_scale; [exact Ek|exact Hn1]. }
  destruct (Hscale 0.045) as [Hsc Hlc];
    [unfold bnd; cbn; lia|eexists; eexists; reflexivity|].
  destruct (Hscale 0.015) as [Hsh Hlh];
    [unfold bnd; cbn; lia|eexists; eexists; reflexivity|].
  clear Hscale.
  assert (HtC : bnd 207 (dC / (1 + 0.045 * c1)))
    by (apply (bnd_div 206); trivial; lia).
  assert (HtH : bnd 210 (dH / (1 + 0.015 * c1)))
    by (apply (bnd_div 209); trivial; lia).
  intros tC tH. fold tC in HtC. fold tH in HtH.
  split; [eapply nonneg_square, HtC|]. split; [eapply nonneg_square, HtH|].
  intros Hsep. apply HlS in Hsep. clear HlS. rename Hsep into HlS.
  destruct (bnd_or_lbnd (-601) Q (bnd_finite _ _ HQ) HnQ) as [HQs|HQl].
  - (* the squared chroma difference is small: the hue radicand stays *)
    right. assert (HlR : lbnd (-600) R)
      by (apply (lbnd_sub (-599)); trivial; lia).
    assert (HlH : lbnd (-300) dH).
    { unfold dH. rewrite ltb_zero_false
        by (left; apply is_nonneg_signed, is_pos_nonneg;
            eapply lbnd_positive, HlR).
      apply (lbnd_sqrt (-600)); [exact HlR|]. now vm_compute. }
    apply (lbnd_positive (2 * (-300 - 203) - 1)).
    apply labs_square; [|lia]. unfold tH.
    apply labs_div; [now apply lbnd_labs| |exact Hsh|lia].
    eapply lbnd_positive, Hlh.
  - (* it is not: the chroma difference is not small either *)
    left. assert (HlC : labs (-300) dC).
    { apply (square_root_labs (-301)); [eapply bnd_finite, HdC|exact HQl|lia]. }
    apply (lbnd_positive (2 * (-300 - 203) - 1)).
    apply labs_square; [|lia]. unfold tC.
    apply labs_div; [exact HlC| |exact Hsc|lia].
    eapply lbnd_positive, Hlc.
Qed.

(** Colours apart in some component are at a distance above 0. *)
Lemma distanceTo_apart_positive (X Y : LABColor.t) :
  small_components X = true -> small_components Y = true ->
  separated_components X Y = true -> same_components X Y = false ->
  (0 <? LABColor.distanceTo X Y) = true.
Proof.
  unfold small_components, separated_components, same_components,
    LABColor.distanceTo, LABColor.l, LABColor.a, LABColor.b.
  set (l1 := get (LABColor.values X) 0).
  set (a1 := get (LABColor.values X) 1).
  set (b1 := get (LABColor.values X) 2).
  set (l2 := get (LABColor.values Y) 0).
  set (a2 := get (LABColor.values Y) 1).
  set (b2 := get (LABColor.values Y) 2).
  intros H1 H2 Hs Hd.
  apply andb_prop in H1, H2, Hs.
  destruct H1 as [H1 Hb1], H2 as [H2 Hb2], Hs as [Hs Hsb].
  apply andb_prop in H1, H2, Hs.
  destruct H1 as [Hl1 Ha1], H2 as [Hl2 Ha2], Hs as [Hsl Hsa].
  assert (Hsep : labs (-299) (a1 - a2) \/ labs (-299) (b1 - b2)
                 \/ (0x1p-511 <=? abs (l1 - l2)) = true).
  { unfold apart in Hsl, Hsa, Hsb.
    destruct (l1 =? l2); [|now right; right].
    destruct (a1 =? a2); [|left; now apply labs_leb_300].
    destruct (b1 =? b2); [discriminate Hd|].
    right; left. now apply labs_leb_300. }
  clear Hd Hsl Hsa Hsb.
  assert (HdL : nonneg ((l1 - l2) * (l1 - l2))).
  { apply (nonneg_square 203). apply small_bnd in Hl1, Hl2.
    apply (bnd_sub 201); trivial; lia. }
  cbv zeta. rewrite div_one.
  rewrite ltb_zero_false
    by (left; repeat apply signed_add; apply mul_self_sign).
  apply pos_ltb, pos_sqrt.
  destruct (chroma_hue_terms a1 b1 a2 b2 Ha1 Hb1 Ha2 Hb2)
    as (HnC & HnH & Hpos).
  destruct Hsep as [H|[H|H]].
  - destruct (Hpos (or_introl H)) as [HC|HH].
    + apply pos_add; [|exact HnH]. now apply pos_add_r.
    + apply pos_add_r; [|exact HH]. now apply nonneg_add.
  - destruct (Hpos (or_intror H)) as [HC|HH].
    + apply pos_add; [|exact HnH]. now apply pos_add_r.
    + apply pos_add_r; [|exact HH]. now apply nonneg_add.
  - apply pos_add; [|exact HnH]. apply pos_add; [|exact HnC].
    now apply square_pos.
Qed.

(** C3, as amended. For every colour X of finite lightness and finite
    chroma and every colour Y numerically identical to X in all three
    components (under [==], so that zeros of either sign are identical),
    [X.distanceTo(Y)] is 0; in particular [X.distanceTo(X)] is 0.  For
    every two colours whose components have a magnitude of at most [2^200]
    and whose components, where they differ, differ by [2^-511] at least
    in lightness and by [2^-300] at least in [a] and in [b],
    [X.distanceTo(Y) == 0] if and only if X and Y are numerically
    identical in all three components. *)
Theorem distanceTo_zero_iff (X Y : LABColor.t) :
  (same_components X Y = true ->
   is_finite (LABColor.l X) = true ->
   is_finite (LABColor.distanceToGray X) = true ->
   LABColor.distanceTo X Y = 0)
  /\ (is_finite (LABColor.l X) = true ->
      is_finite (LABColor.distanceToGray X) = true ->
      LABColor.distanceTo X X = 0)
  /\ (small_components X = true -> small_components Y = true ->
      separated_components X Y = true ->
      ((LABColor.distanceTo X Y =? 0) = true
       <-> same_components X Y = true)).
Proof.
  split; [apply distanceTo_same_zero|]. split.
  - intros Hl Hc. apply distanceTo_same_zero; trivial.
    destruct (chroma_finite_components _ _ Hc) as [Ha Hb].
    unfold same_components.
    now rewrite !eqb_refl_finite.
  - intros HX HY Hsep. split.
    + intros Hz. destruct (same_components X Y) eqn:E; [reflexivity|].
      pose proof (distanceTo_apart_positive X Y HX HY Hsep E) as Hp.
      apply ltb_eqb_zero in Hp. congruence.
    + intros Hs. unfold small_components in HX. apply andb_prop in HX.
      destruct HX as [HX Hb]. apply andb_prop in HX. destruct HX as [Hl Ha].
      rewrite distanceTo_same_zero; trivial.
      * eapply bnd_finite, small_bnd, Hl.
      * now apply small_chroma_finite.
Qed.

Lemma distanceTo_zero_iff_witness :
  let X := LABColor.new 0.5 neg_zero 0.4 in
  let Y := LABColor.new 0.5 0 0.4 in
  let Z := LABColor.new 0.5 1e-80 0.4 in
  (same_components X Y = true
   /\ is_finite (LABColor.l X) = true
   /\ is_finite (LABColor.distanceToGray X) = true
   /\ LABColor.distanceTo X Y = 0)
  /\ (small_components X = true /\ small_components Z = true
      /\ separated_components X Z = true
      /\ same_components X Z = false
      /\ ((LABColor.distanceTo X Z =? 0) = true
          <-> same_components X Z = true)).
Proof.
  split.
  - split; [reflexivity|]. split; [reflexivity|]. split; [reflexivity|].
    apply (proj1 (distanceTo_zero_iff (LABColor.new 0.5 neg_zero 0.4)
                                      (LABColor.new 0.5 0 0.4)));
      reflexivity.
  - split; [reflexivity|]. split; [reflexivity|]. split; [reflexivity|].
    split; [reflexivity|].
    apply (proj2 (proj2 (distanceTo_zero_iff
                           (LABColor.new 0.5 neg_zero 0.4)
                           (LABColor.new 0.5 1e-80 0.4))));
      reflexivity.
Defined.

(** The thresholds at work.  Below them a difference is lost:
    [(0.5, 2^-500, 2^50)] and [(0.5, 0, 2^50)] differ in [a] by [2^-500],
    the hue term divided by [sh] has a square that underflows, and their
    distance is 0. *)
Lemma distanceTo_hue_underflow_example :
  let X := LABColor.new 0.5 0x1p-500 0x1p50 in
  let Y := LABColor.new 0.5 0 0x1p50 in
  small_components X = true /\ small_components Y = true
  /\ separated_components X Y = false
  /\ same_components X Y = false
  /\ LABColor.distanceTo X Y = 0.
Proof. repeat split. Qed.

End ZeroDistance.
